(** * Comparator-driven sorting: a shallow embedding of [sorting.py]

    The Python module provides three comparators and three sorting
    algorithms ([merge_sorted], [quick_sorted], [quick_sort]) together with
    the linear merge helper [_merged].  Every function below is a
    transcription of the Python function of the same name.

    - Python lists are [list A]; subscripts that can go out of range return
      an [outcome] that records the raised exception.
    - A comparator is any Python callable, so its result is an arbitrary
      integer ([Z]); the code tests it against [-1], [1] and [0].
    - [while] loops and recursion whose termination depends on the
      comparator are driven by a fuel counter; [Timeout] stands for a loop
      or a recursion that is still running when the fuel is used up.
    - [random.choice] reads a generator; the generator is a sequence of raw
      draws [rnd] together with the position of the next draw, which is
      threaded through [quick_sorted].
    - The interpreter's limit on the depth of recursion is not modelled. *)

From Stdlib Require Import ZArith Lia String.
From stdpp Require Import base tactics option list sorting gmap.

Local Open Scope Z_scope.

(** ** Outcomes of running Python code *)

Inductive exn : Type :=
| IndexError   (* subscript out of range, or [random.choice] of an empty list *)
| TypeError.   (* arithmetic on [None] *)

Inductive outcome (T : Type) : Type :=
| Done (v : T)
| Raise (e : exn)
| Timeout.

Arguments Done {T} v.
Arguments Raise {T} e.
Arguments Timeout {T}.

#[global] Instance outcome_ret : MRet outcome := fun _ v => Done v.

#[global] Instance outcome_bind : MBind outcome := fun _ _ k m =>
  match m with
  | Done v => k v
  | Raise e => Raise e
  | Timeout => Timeout
  end.

(** [xs[i]] for a cursor that is never negative. *)
Definition getitem {A} (xs : list A) (i : nat) : outcome A :=
  match xs !! i with
  | Some x => Done x
  | None => Raise IndexError
  end.

(** ** Comparators *)

Definition cmp_standard (a b : Z) : Z :=
  if a <? b then -1
  else if b <? a then 1
  else 0.

Definition cmp_reverse (a b : Z) : Z :=
  if a <? b then 1
  else if b <? a then -1
  else 0.

(** Python's [%] with a positive modulus is the floor remainder, as [Z.modulo]. *)
Definition cmp_last_digit (a b : Z) : Z :=
  cmp_standard (a mod 10) (b mod 10).

(** The comparator used by the stability scenario: pairs compared on their
    first component only. *)
Definition cmp_first {B : Type} (a b : Z * B) : Z :=
  cmp_standard (fst a) (fst b).

(** Sample inputs: records with a key and a label, compared on the key. *)
Definition same_key : list (Z * string) :=
  [(1, "a"%string); (1, "b"%string); (1, "c"%string); (1, "d"%string)].

Definition one_pair : list (Z * string) :=
  [(2, "x"%string); (1, "a"%string); (1, "b"%string)].

(** Python subscripts on a list of length [n]: a negative subscript counts
    from the end, anything else out of range raises [IndexError]. *)
Definition py_index (n : nat) (i : Z) : outcome nat :=
  if 0 <=? i then
    if i <? Z.of_nat n then Done (Z.to_nat i) else Raise IndexError
  else
    if 0 <=? i + Z.of_nat n then Done (Z.to_nat (i + Z.of_nat n))
    else Raise IndexError.

(** [array[i]] *)
Definition getitem_z {A} (array : list A) (i : Z) : outcome A :=
  k ← py_index (length array) i;
  getitem array k.

(** [array[i] = v] *)
Definition setitem_z {A} (array : list A) (i : Z) (v : A) : outcome (list A) :=
  k ← py_index (length array) i;
  Done (<[k := v]> array).

(** A [for] loop whose body may [return]: the body either hands the loop
    variables on to the next iteration or leaves the function with a value. *)
Inductive flow (S R : Type) : Type :=
| Next (s : S)
| Return (r : R).

Arguments Next {S R} s.
Arguments Return {S R} r.

Fixpoint for_each {J S R : Type} (body : J → S → outcome (flow S R))
    (js : list J) (s : S) : outcome (flow S R) :=
  match js with
  | [] => Done (Next s)
  | j :: js' =>
      r ← body j s;
      match r with
      | Next s' => for_each body js' s'
      | Return v => Done (Return v)
      end
  end.

(** ** The algorithms, over an arbitrary element type and comparator *)

Section Algorithms.
Context {A : Type}.
Variable cmp : A → A → Z.

(** *** [_merged] *)

(** The variables of the [while] loop. *)
Record merge_state : Type := MergeState {
  new_list : list A;
  counter1 : nat;
  counter2 : nat
}.

(** One pass through the loop body: three consecutive [if] statements on
    the same [number], each reading the cursors as they are at that
    point. *)
Definition merged_body (xs ys : list A) (st : merge_state) : outcome merge_state :=
  x ← getitem xs (counter1 st);
  y ← getitem ys (counter2 st);
  let number := cmp x y in
  st1 ← (if number =? -1 then
           a ← getitem xs (counter1 st);
           Done (MergeState (new_list st ++ [a]) (counter1 st + 1) (counter2 st))
         else Done st);
  st2 ← (if number =? 1 then
           b ← getitem ys (counter2 st1);
           Done (MergeState (new_list st1 ++ [b]) (counter1 st1) (counter2 st1 + 1))
         else Done st1);
  (if number =? 0 then
     a ← getitem xs (counter1 st2);
     b ← getitem ys (counter2 st2);
     Done (MergeState ((new_list st2 ++ [a]) ++ [b])
                      (counter1 st2 + 1) (counter2 st2 + 1))
   else Done st2).

(** [counter1 < len(xs) and counter2 < len(ys)] *)
Definition merged_guard (xs ys : list A) (st : merge_state) : bool :=
  (counter1 st <? length xs)%nat && (counter2 st <? length ys)%nat.

Fixpoint merged_loop (fuel : nat) (xs ys : list A) (st : merge_state)
  : outcome merge_state :=
  if merged_guard xs ys st then
    match fuel with
    | O => Timeout
    | S fuel' =>
        st' ← merged_body xs ys st;
        merged_loop fuel' xs ys st'
    end
  else Done st.

Definition _merged (fuel : nat) (xs ys : list A) : outcome (list A) :=
  st ← merged_loop fuel xs ys (MergeState [] 0 0);
  Done ((new_list st ++ drop (counter1 st) xs) ++ drop (counter2 st) ys).

(** *** [merge_sorted] *)

(** [copy.deepcopy] of a list of immutable values yields an equal list. *)
Definition deepcopy (xs : list A) : list A := xs.

(** [len(xs2) // 2] *)
Definition midpoint (xs2 : list A) : nat := (length xs2 `div` 2)%nat.

Fixpoint merge_sorted (fuel : nat) (xs : list A) : outcome (list A) :=
  match fuel with
  | O => Timeout
  | S fuel' =>
      let xs2 := deepcopy xs in
      if (length xs2 <=? 1)%nat then Done xs2
      else
        let mid := midpoint xs2 in
        let left := take mid xs2 in
        let right := drop mid xs2 in
        lmerge ← merge_sorted fuel' left;
        rmerge ← merge_sorted fuel' right;
        _merged fuel' lmerge rmerge
  end.

(** *** [quick_sorted] *)

(** The random generator: [rnd k] is the [k]-th raw draw. *)
Variable rnd : nat → nat.

(** [random.choice(xs)] with the generator at position [k]: an element at a
    position below [len(xs)], and the generator moved on by one draw.
    Choosing from an empty list raises [IndexError]. *)
Definition random_choice (xs : list A) (k : nat) : outcome (A * nat) :=
  x ← getitem xs (rnd k `mod` length xs)%nat;
  Done (x, S k).

Record buckets : Type := Buckets {
  less_than_pivot : list A;
  greater_than_pivot : list A;
  equal_to_pivot : list A
}.

(** The body of [for items in xs2]. *)
Definition bucket_body (pivot : A) (b : buckets) (items : A) : buckets :=
  let comparison := cmp items pivot in
  let b1 := if comparison =? -1 then
              Buckets (less_than_pivot b ++ [items]) (greater_than_pivot b)
                      (equal_to_pivot b)
            else b in
  let b2 := if comparison =? 1 then
              Buckets (less_than_pivot b1) (greater_than_pivot b1 ++ [items])
                      (equal_to_pivot b1)
            else b1 in
  if comparison =? 0 then
    Buckets (less_than_pivot b2) (greater_than_pivot b2)
            (equal_to_pivot b2 ++ [items])
  else b2.

Fixpoint quick_sorted (fuel : nat) (xs : list A) (k : nat)
  : outcome (list A * nat) :=
  match fuel with
  | O => Timeout
  | S fuel' =>
      let xs2 := deepcopy xs in
      if (length xs2 <=? 1)%nat then Done (xs2, k)
      else
        '(pivot, k) ← random_choice xs2 k;
        let b := foldl (bucket_body pivot) (Buckets [] [] []) xs2 in
        '(less, k) ← quick_sorted fuel' (less_than_pivot b) k;
        '(greater, k) ← quick_sorted fuel' (greater_than_pivot b) k;
        Done ((less ++ equal_to_pivot b) ++ greater, k)
  end.

(** *** [quick_sort] *)

(** [temp = array[i]; array[i] = array[j]; array[j] = temp] *)
Definition swap_items (array : list A) (i j : Z) : outcome (list A) :=
  temp ← getitem_z array i;
  aj ← getitem_z array j;
  array ← setitem_z array i aj;
  setitem_z array j temp.

(** The body of [for j in range(lo, hi)] in [_partition].  The exchange of
    [array[i + 1]] with [array[hi]] and the [return] are part of the body. *)
Definition partition_body (hi : Z) (pivot : A) (j : Z) (s : list A * Z)
  : outcome (flow (list A * Z) (list A * Z)) :=
  let '(array, i) := s in
  aj ← getitem_z array j;
  let comparison := cmp aj pivot in
  '(array, i) ← (if comparison =? -1 then
                   let i := i + 1 in
                   array ← swap_items array i j;
                   Done (array, i)
                 else Done (array, i));
  '(array, i) ← (if comparison =? 0 then
                   let i := i + 1 in
                   array ← swap_items array i j;
                   Done (array, i)
                 else Done (array, i));
  array ← swap_items array (i + 1) hi;
  Done (Return (array, i + 1)).

(** [_partition] returns the array as it leaves it and the returned value:
    [Some p] for [return p], [None] when the loop ends without a [return]. *)
Definition _partition (array : list A) (lo hi : Z) : outcome (list A * option Z) :=
  pivot ← getitem_z array hi;
  let i := lo - 1 in
  r ← for_each (partition_body hi pivot) (seqZ lo (hi - lo)) (array, i);
  match r with
  | Return (array, p) => Done (array, Some p)
  | Next (array, _) => Done (array, None)
  end.

Fixpoint _quicksort (fuel : nat) (array : list A) (lo hi : Z) : outcome (list A) :=
  match fuel with
  | O => Timeout
  | S fuel' =>
      if lo <? hi then
        '(array, p) ← _partition array lo hi;
        match p with
        | None => Raise TypeError
        | Some p =>
            array ← _quicksort fuel' array lo (p - 1);
            array ← _quicksort fuel' array (p + 1) hi;
            Done array
        end
      else Done array
  end.

Definition quick_sort (fuel : nat) (xs : list A) : outcome (list A) :=
  _quicksort fuel xs 0 (Z.of_nat (length xs) - 1).

End Algorithms.

(** ** The same functions over a store of list objects

    The definitions above treat a list as a value.  To speak about which
    list objects a call reads, writes and returns, the functions are written
    once more over a store that maps references to the contents of the list
    objects; arguments and results are references.  Elements are immutable
    values, so [copy.deepcopy] allocates one new list object. *)

Definition prog (A T : Type) : Type :=
  gmap nat (list A) → outcome (T * gmap nat (list A)).

Definition pure {A T} (v : T) : prog A T := λ σ, Done (v, σ).

Definition fail {A T} (e : exn) : prog A T := λ _, Raise e.

Definition diverge {A T} : prog A T := λ _, Timeout.

#[global] Instance prog_bind {A} : MBind (prog A) := λ T U k m σ,
  match m σ with
  | Done (v, σ') => k v σ'
  | Raise e => Raise e
  | Timeout => Timeout
  end.

(** A finished value-level step, run inside the store. *)
Definition lift {A T} (o : outcome T) : prog A T := λ σ,
  match o with
  | Done v => Done (v, σ)
  | Raise e => Raise e
  | Timeout => Timeout
  end.

(** A new list object with contents [v], at a reference not in use. *)
Definition alloc {A} (v : list A) : prog A nat := λ σ,
  let l := fresh (dom σ) in Done (l, <[l := v]> σ).

(** The contents of the object at [l]; a reference that holds no list
    cannot be subscripted. *)
Definition load {A} (l : nat) : prog A (list A) := λ σ,
  match σ !! l with
  | Some v => Done (v, σ)
  | None => Raise TypeError
  end.

(** Overwrite the contents of the object at [l]. *)
Definition update {A} (l : nat) (v : list A) : prog A unit := λ σ,
  Done ((), <[l := v]> σ).

(** [len(l)] *)
Definition list_len {A} (l : nat) : prog A nat :=
  v ← load l; pure (length v).

(** [l[i]] with a cursor, and with an integer subscript *)
Definition list_getitem {A} (l : nat) (i : nat) : prog A A :=
  v ← load l; lift (getitem v i).

Definition list_getitem_z {A} (l : nat) (i : Z) : prog A A :=
  v ← load l; lift (getitem_z v i).

(** [l[i] = x] *)
Definition list_setitem_z {A} (l : nat) (i : Z) (x : A) : prog A unit :=
  v ← load l; v' ← lift (setitem_z v i x); update l v'.

(** [l.append(x)] *)
Definition list_append {A} (l : nat) (x : A) : prog A unit :=
  v ← load l; update l (v ++ [x]).

(** [l[n:]], [l[:n]], [l1 + l2], [copy.deepcopy(l)]: each a new object *)
Definition list_slice_from {A} (l : nat) (n : nat) : prog A nat :=
  v ← load l; alloc (drop n v).

Definition list_slice_to {A} (l : nat) (n : nat) : prog A nat :=
  v ← load l; alloc (take n v).

Definition list_concat {A} (l1 l2 : nat) : prog A nat :=
  v1 ← load l1; v2 ← load l2; alloc (v1 ++ v2).

Definition list_deepcopy {A} (l : nat) : prog A nat :=
  v ← load l; alloc v.

(** [for x in items: body(x)] *)
Fixpoint for_items {A T} (body : T → prog A unit) (items : list T) : prog A unit :=
  match items with
  | [] => pure ()
  | x :: items' => _ ← body x; for_items body items'
  end.

(** [for j in js: body(j)] where the body may [return] *)
Fixpoint for_flow {A J S R} (body : J → S → prog A (flow S R))
    (js : list J) (s : S) : prog A (flow S R) :=
  match js with
  | [] => pure (Next s)
  | j :: js' =>
      r ← body j s;
      match r with
      | Next s' => for_flow body js' s'
      | Return v => pure (Return v)
      end
  end.

Module Obj.
Section Objects.
Context {A : Type}.
Variable cmp : A → A → Z.
Variable rnd : nat → nat.

(** [random.choice(xs)] *)
Definition list_random_choice (xs : nat) (k : nat) : prog A (A * nat) :=
  v ← load xs; lift (random_choice rnd v k).

Definition merged_body (xs ys new_list : nat) (c : nat * nat) : prog A (nat * nat) :=
  let '(counter1, counter2) := c in
  x ← list_getitem xs counter1;
  y ← list_getitem ys counter2;
  let number := cmp x y in
  '(counter1, counter2) ←
    (if number =? -1 then
       a ← list_getitem xs counter1;
       _ ← list_append new_list a;
       pure (counter1 + 1, counter2)%nat
     else pure (counter1, counter2));
  '(counter1, counter2) ←
    (if number =? 1 then
       b ← list_getitem ys counter2;
       _ ← list_append new_list b;
       pure (counter1, counter2 + 1)%nat
     else pure (counter1, counter2));
  (if number =? 0 then
     a ← list_getitem xs counter1;
     _ ← list_append new_list a;
     b ← list_getitem ys counter2;
     _ ← list_append new_list b;
     pure (counter1 + 1, counter2 + 1)%nat
   else pure (counter1, counter2)).

Fixpoint merged_loop (fuel : nat) (xs ys new_list : nat) (c : nat * nat)
  : prog A (nat * nat) :=
  n1 ← list_len xs;
  n2 ← list_len ys;
  if (c.1 <? n1)%nat && (c.2 <? n2)%nat then
    match fuel with
    | O => diverge
    | S fuel' =>
        c' ← merged_body xs ys new_list c;
        merged_loop fuel' xs ys new_list c'
    end
  else pure c.

Definition _merged (fuel : nat) (xs ys : nat) : prog A nat :=
  new_list ← alloc [];
  '(counter1, counter2) ← merged_loop fuel xs ys new_list (0, 0)%nat;
  tail1 ← list_slice_from xs counter1;
  new_list ← list_concat new_list tail1;
  tail2 ← list_slice_from ys counter2;
  list_concat new_list tail2.

Fixpoint merge_sorted (fuel : nat) (xs : nat) : prog A nat :=
  match fuel with
  | O => diverge
  | S fuel' =>
      xs2 ← list_deepcopy xs;
      n ← list_len xs2;
      if (n <=? 1)%nat then pure xs2
      else
        let mid := (n `div` 2)%nat in
        left ← list_slice_to xs2 mid;
        right ← list_slice_from xs2 mid;
        lmerge ← merge_sorted fuel' left;
        rmerge ← merge_sorted fuel' right;
        _merged fuel' lmerge rmerge
  end.

Definition bucket_body (pivot : A)
    (less_than_pivot greater_than_pivot equal_to_pivot : nat) (items : A)
  : prog A unit :=
  let comparison := cmp items pivot in
  _ ← (if comparison =? -1 then list_append less_than_pivot items else pure ());
  _ ← (if comparison =? 1 then list_append greater_than_pivot items else pure ());
  (if comparison =? 0 then list_append equal_to_pivot items else pure ()).

Fixpoint quick_sorted (fuel : nat) (xs : nat) (k : nat) : prog A (nat * nat) :=
  match fuel with
  | O => diverge
  | S fuel' =>
      xs2 ← list_deepcopy xs;
      n ← list_len xs2;
      if (n <=? 1)%nat then pure (xs2, k)
      else
        less_than_pivot ← alloc [];
        greater_than_pivot ← alloc [];
        equal_to_pivot ← alloc [];
        '(pivot, k) ← list_random_choice xs2 k;
        (* the loop body appends to the buckets only, so the loop runs over
           the contents [xs2] has when it starts *)
        items ← load xs2;
        _ ← for_items
              (bucket_body pivot less_than_pivot greater_than_pivot equal_to_pivot)
              items;
        '(less, k) ← quick_sorted fuel' less_than_pivot k;
        '(greater, k) ← quick_sorted fuel' greater_than_pivot k;
        front ← list_concat less equal_to_pivot;
        result ← list_concat front greater;
        pure (result, k)
  end.

Definition swap_items (array : nat) (i j : Z) : prog A unit :=
  temp ← list_getitem_z array i;
  aj ← list_getitem_z array j;
  _ ← list_setitem_z array i aj;
  list_setitem_z array j temp.

Definition partition_body (array : nat) (hi : Z) (pivot : A) (j : Z) (i : Z)
  : prog A (flow Z Z) :=
  aj ← list_getitem_z array j;
  let comparison := cmp aj pivot in
  i ← (if comparison =? -1 then
         let i := i + 1 in
         _ ← swap_items array i j;
         pure i
       else pure i);
  i ← (if comparison =? 0 then
         let i := i + 1 in
         _ ← swap_items array i j;
         pure i
       else pure i);
  _ ← swap_items array (i + 1) hi;
  pure (Return (i + 1)).

Definition _partition (array : nat) (lo hi : Z) : prog A (option Z) :=
  pivot ← list_getitem_z array hi;
  let i := lo - 1 in
  r ← for_flow (partition_body array hi pivot) (seqZ lo (hi - lo)) i;
  match r with
  | Return p => pure (Some p)
  | Next _ => pure None
  end.

Fixpoint _quicksort (fuel : nat) (array : nat) (lo hi : Z) : prog A nat :=
  match fuel with
  | O => diverge
  | S fuel' =>
      if lo <? hi then
        p ← _partition array lo hi;
        match p with
        | None => fail TypeError
        | Some p =>
            _ ← _quicksort fuel' array lo (p - 1);
            _ ← _quicksort fuel' array (p + 1) hi;
            pure array
        end
      else pure array
  end.

Definition quick_sort (fuel : nat) (xs : nat) : prog A nat :=
  n ← list_len xs;
  _quicksort fuel xs 0 (Z.of_nat n - 1).

End Objects.
End Obj.

(** What a program may do to the objects that exist when it starts: it
    removes none, and it leaves the contents of every object outside [W]
    as they are. *)
Definition preserves {A T} (W : gset nat) (m : prog A T) : Prop :=
  ∀ σ v σ', m σ = Done (v, σ') →
    dom σ ⊆ dom σ' ∧ ∀ l, l ∈ dom σ → l ∉ W → σ' !! l = σ !! l.

(** The reference a program returns is that of an object it created. *)
Definition returns_new {A} (m : prog A nat) : Prop :=
  ∀ σ l σ', m σ = Done (l, σ') → (l ∉ dom σ) ∧ (l ∈ dom σ').

(** The outcome of a value-level step that threads the contents of one list,
    as the outcome of a program that keeps those contents in the object at
    [l]. *)
Definition in_place {A T} (l : nat) (σ : gmap nat (list A))
    (o : outcome (list A * T)) : outcome (T * gmap nat (list A)) :=
  match o with
  | Done (v, t) => Done (t, <[l := v]> σ)
  | Raise e => Raise e
  | Timeout => Timeout
  end.

Definition split_flow {A S R} (r : flow (list A * S) (list A * R))
  : list A * flow S R :=
  match r with
  | Next (v, s) => (v, Next s)
  | Return (v, p) => (v, Return p)
  end.

(** ** Specification vocabulary *)

Section Vocabulary.
Context {A : Type}.
Variable cmp : A → A → Z.

(** The comparator only ever answers [-1], [0] or [1]. *)
Definition in_range : Prop :=
  ∀ a b, cmp a b = -1 ∨ cmp a b = 0 ∨ cmp a b = 1.

(** [a] does not come after [b]. *)
Definition cmp_le (a b : A) : Prop := cmp a b ≠ 1.

(** The three-way contract: answers in [{-1,0,1}], [a] follows [b] exactly
    when [b] precedes [a], and "does not come after" is transitive.  Totality
    and reflexivity of [cmp_le] follow. *)
Record three_way : Prop := ThreeWay {
  tw_range : in_range;
  tw_flip : ∀ a b, cmp a b = 1 ↔ cmp b a = -1;
  tw_trans : ∀ a b c, cmp_le a b → cmp_le b c → cmp_le a c
}.

(** No adjacent pair [(x, y)] of the list has [cmp x y = 1]. *)
Definition sorted_by (xs : list A) : Prop := Sorted cmp_le xs.

(** The elements of [xs] that are equivalent to [a], in the order in which
    they occur in [xs]. *)
Definition class_of (a : A) (xs : list A) : list A :=
  filter (λ x, cmp x a = 0) xs.

(** [out] keeps the elements of every equivalence class in the order they
    have in [xs]. *)
Definition stable (xs out : list A) : Prop :=
  ∀ a, class_of a out = class_of a xs.

(** The merge of section 4.2 of the specification, in its words: on "less"
    emit the left element, on "greater" the right one, on "equal" the left
    one followed by the right one; when one input is exhausted the rest of
    the other follows. *)
Fixpoint merge_fun (xs : list A) : list A → list A :=
  fix go (ys : list A) : list A :=
    match xs, ys with
    | [], _ => ys
    | _, [] => xs
    | x :: xs', y :: ys' =>
        if cmp x y =? -1 then x :: merge_fun xs' ys
        else if cmp x y =? 1 then y :: go ys'
        else x :: y :: merge_fun xs' ys'
    end.

(** The states the loop of [_merged] passes through on inputs [xs], [ys]. *)
Inductive merged_reaches (xs ys : list A) : merge_state → Prop :=
| reaches_start : merged_reaches xs ys (MergeState [] 0 0)
| reaches_step st st' :
    merged_reaches xs ys st →
    merged_guard xs ys st = true →
    merged_body cmp xs ys st = Done st' →
    merged_reaches xs ys st'.

End Vocabulary.

(** ** Facts about outcomes and subscripts *)

Lemma bind_Done {T U} (v : T) (k : T → outcome U) : (Done v ≫= k) = k v.
Proof. reflexivity. Qed.

Lemma bind_Done_inv {T U} (m : outcome T) (k : T → outcome U) v :
  (m ≫= k) = Done v → ∃ u, m = Done u ∧ k u = Done v.
Proof. destruct m as [u| |]; [|done..]. intros H. by exists u. Qed.

(** Run the binds whose first computation has finished. *)
Ltac run := cbn [mbind outcome_bind].

Lemma getitem_Some {A} (xs : list A) i x : xs !! i = Some x → getitem xs i = Done x.
Proof. unfold getitem. by intros ->. Qed.

(** ** The merge *)

Section Merge.
Context {A : Type}.
Variable cmp : A → A → Z.

Lemma merge_fun_nil_l ys : merge_fun cmp [] ys = ys.
Proof. by destruct ys. Qed.

Lemma merge_fun_nil_r xs : merge_fun cmp xs [] = xs.
Proof. by destruct xs. Qed.

Lemma merge_fun_cons x y xs ys :
  merge_fun cmp (x :: xs) (y :: ys) =
    if cmp x y =? -1 then x :: merge_fun cmp xs (y :: ys)
    else if cmp x y =? 1 then y :: merge_fun cmp (x :: xs) ys
    else x :: y :: merge_fun cmp xs ys.
Proof. reflexivity. Qed.

#[local] Arguments merge_fun : simpl never.

Lemma merge_fun_Permutation xs ys : merge_fun cmp xs ys ≡ₚ xs ++ ys.
Proof.
  revert ys. induction xs as [|x xs IHx]; intros ys.
  { by rewrite merge_fun_nil_l. }
  induction ys as [|y ys IHy].
  { by rewrite merge_fun_nil_r, app_nil_r. }
  rewrite merge_fun_cons.
  destruct (cmp x y =? -1); [by rewrite IHx|].
  destruct (cmp x y =? 1).
  - rewrite IHy. by rewrite <- Permutation_middle.
  - rewrite IHx. simpl. by rewrite <- Permutation_middle.
Qed.

(** What one pass through the loop body does, by the comparator's answer. *)
Lemma merged_body_less xs ys st x y :
  xs !! counter1 st = Some x → ys !! counter2 st = Some y → cmp x y = -1 →
  merged_body cmp xs ys st =
    Done (MergeState (new_list st ++ [x]) (counter1 st + 1) (counter2 st)).
Proof.
  intros Hx Hy Hc. unfold merged_body.
  rewrite (getitem_Some _ _ _ Hx), (getitem_Some _ _ _ Hy). simpl.
  by rewrite Hc.
Qed.

Lemma merged_body_greater xs ys st x y :
  xs !! counter1 st = Some x → ys !! counter2 st = Some y → cmp x y = 1 →
  merged_body cmp xs ys st =
    Done (MergeState (new_list st ++ [y]) (counter1 st) (counter2 st + 1)).
Proof.
  intros Hx Hy Hc. unfold merged_body.
  rewrite (getitem_Some _ _ _ Hx), (getitem_Some _ _ _ Hy). simpl.
  rewrite Hc. simpl. by rewrite (getitem_Some _ _ _ Hy).
Qed.

Lemma merged_body_equal xs ys st x y :
  xs !! counter1 st = Some x → ys !! counter2 st = Some y → cmp x y = 0 →
  merged_body cmp xs ys st =
    Done (MergeState ((new_list st ++ [x]) ++ [y])
                     (counter1 st + 1) (counter2 st + 1)).
Proof.
  intros Hx Hy Hc. unfold merged_body.
  rewrite (getitem_Some _ _ _ Hx), (getitem_Some _ _ _ Hy). simpl.
  rewrite Hc. simpl.
  by rewrite (getitem_Some _ _ _ Hx), (getitem_Some _ _ _ Hy).
Qed.

(** An answer outside [{-1,0,1}] leaves every loop variable as it was. *)
Lemma merged_body_other xs ys st x y :
  xs !! counter1 st = Some x → ys !! counter2 st = Some y →
  cmp x y ≠ -1 → cmp x y ≠ 1 → cmp x y ≠ 0 →
  merged_body cmp xs ys st = Done st.
Proof.
  intros Hx Hy H1 H2 H3. unfold merged_body.
  rewrite (getitem_Some _ _ _ Hx), (getitem_Some _ _ _ Hy). simpl.
  by rewrite !(proj2 (Z.eqb_neq _ _)).
Qed.

Lemma merged_guard_true (xs ys : list A) st :
  merged_guard xs ys st = true ↔
    (counter1 st < length xs)%nat ∧ (counter2 st < length ys)%nat.
Proof.
  unfold merged_guard. by rewrite andb_true_iff, !Nat.ltb_lt.
Qed.

Lemma merged_guard_lookup (xs ys : list A) st :
  merged_guard xs ys st = true →
  ∃ x y, xs !! counter1 st = Some x ∧ ys !! counter2 st = Some y.
Proof.
  rewrite merged_guard_true. intros [H1 H2].
  apply lookup_lt_is_Some_2 in H1 as [x Hx].
  apply lookup_lt_is_Some_2 in H2 as [y Hy]. eauto.
Qed.

Lemma merged_loop_exit (xs ys : list A) fuel st :
  merged_guard xs ys st = false → merged_loop cmp fuel xs ys st = Done st.
Proof. intros Hg. destruct fuel; simpl; by rewrite Hg. Qed.

Lemma merged_loop_step (xs ys : list A) fuel st st' :
  merged_guard xs ys st = true → merged_body cmp xs ys st = Done st' →
  merged_loop cmp (S fuel) xs ys st = merged_loop cmp fuel xs ys st'.
Proof. intros Hg Hb. simpl. by rewrite Hg, Hb. Qed.

(** The loop is only left with its condition false. *)
Lemma merged_loop_guard (xs ys : list A) fuel st st' :
  merged_loop cmp fuel xs ys st = Done st' → merged_guard xs ys st' = false.
Proof.
  revert st. induction fuel as [|fuel IH]; intros st; simpl;
    destruct (merged_guard xs ys st) eqn:Hg; try done.
  - intros ?. by simplify_eq.
  - intros (st1 & _ & Hl)%bind_Done_inv. by apply (IH st1).
  - intros ?. by simplify_eq.
Qed.

(** With answers in [{-1,0,1}] the loop stops within one pass per remaining
    element, and what it leaves behind is the specified merge of the two
    remainders appended to what had been emitted before. *)
Lemma merged_loop_spec (xs ys : list A) :
  in_range cmp →
  ∀ fuel st,
    (length xs - counter1 st + (length ys - counter2 st) ≤ fuel)%nat →
    ∃ st', merged_loop cmp fuel xs ys st = Done st' ∧
      (new_list st' ++ drop (counter1 st') xs) ++ drop (counter2 st') ys =
      new_list st ++ merge_fun cmp (drop (counter1 st) xs) (drop (counter2 st) ys).
Proof.
  intros Hr fuel. induction fuel as [|fuel IH]; intros st Hfuel;
    destruct (merged_guard xs ys st) eqn:Hg.
  - apply merged_guard_true in Hg. lia.
  - exists st. split; [by apply merged_loop_exit|].
    apply not_true_iff_false in Hg. rewrite merged_guard_true in Hg.
    destruct (decide (counter1 st < length xs)%nat).
    + rewrite (drop_ge ys) by lia. by rewrite merge_fun_nil_r, app_nil_r.
    + rewrite (drop_ge xs) by lia. by rewrite merge_fun_nil_l, app_nil_r.
  - destruct (merged_guard_lookup _ _ _ Hg) as (x & y & Hx & Hy).
    apply merged_guard_true in Hg as Hlt.
    rewrite (drop_S _ _ _ Hx), (drop_S _ _ _ Hy), merge_fun_cons.
    destruct (Hr x y) as [Hc|[Hc|Hc]].
    + rewrite (merged_loop_step _ _ _ _ _ Hg (merged_body_less _ _ _ _ _ Hx Hy Hc)), Hc.
      edestruct IH as (st' & -> & Heq); [|exists st'; split; [done|]].
      { simpl. lia. }
      rewrite Heq. simpl. rewrite Nat.add_1_r, <- (drop_S _ _ _ Hy).
      by rewrite <- app_assoc.
    + rewrite (merged_loop_step _ _ _ _ _ Hg (merged_body_equal _ _ _ _ _ Hx Hy Hc)), Hc.
      edestruct IH as (st' & -> & Heq); [|exists st'; split; [done|]].
      { simpl. lia. }
      rewrite Heq. simpl. rewrite !Nat.add_1_r.
      by rewrite <- !app_assoc.
    + rewrite (merged_loop_step _ _ _ _ _ Hg (merged_body_greater _ _ _ _ _ Hx Hy Hc)), Hc.
      edestruct IH as (st' & -> & Heq); [|exists st'; split; [done|]].
      { simpl. lia. }
      rewrite Heq. simpl. rewrite Nat.add_1_r, <- (drop_S _ _ _ Hx).
      by rewrite <- app_assoc.
  - exists st. split; [by apply merged_loop_exit|].
    apply not_true_iff_false in Hg. rewrite merged_guard_true in Hg.
    destruct (decide (counter1 st < length xs)%nat).
    + rewrite (drop_ge ys) by lia. by rewrite merge_fun_nil_r, app_nil_r.
    + rewrite (drop_ge xs) by lia. by rewrite merge_fun_nil_l, app_nil_r.
Qed.

Lemma merged_spec (xs ys : list A) fuel :
  in_range cmp → (length xs + length ys ≤ fuel)%nat →
  _merged cmp fuel xs ys = Done (merge_fun cmp xs ys).
Proof.
  intros Hr Hfuel. unfold _merged.
  destruct (merged_loop_spec xs ys Hr fuel (MergeState [] 0 0)) as (st' & -> & Heq).
  { simpl. lia. }
  simpl in *. by rewrite Heq.
Qed.

(** A state in which the loop makes no progress is never left. *)
Lemma merged_loop_stuck (xs ys : list A) st :
  merged_guard xs ys st = true → merged_body cmp xs ys st = Done st →
  ∀ fuel, merged_loop cmp fuel xs ys st = Timeout.
Proof.
  intros Hg Hb fuel. induction fuel as [|fuel IH]; simpl; rewrite Hg; [done|].
  by rewrite Hb.
Qed.

Lemma merged_reaches_timeout (xs ys : list A) st :
  merged_reaches cmp xs ys st →
  (∀ fuel, merged_loop cmp fuel xs ys st = Timeout) →
  ∀ fuel, merged_loop cmp fuel xs ys (MergeState [] 0 0) = Timeout.
Proof.
  induction 1 as [|st st' _ IH Hg Hb]; [done|].
  intros Hst'. apply IH. intros [|fuel].
  - simpl. by rewrite Hg.
  - by rewrite (merged_loop_step _ _ _ _ _ Hg Hb).
Qed.

End Merge.

(** ** Consequences of the three-way contract *)

Section Order.
Context {A : Type}.
Variable cmp : A → A → Z.
Hypothesis Htw : three_way cmp.

(** Every answer fixes how the two elements stand to each other. *)
Lemma cmp_cases a b :
  (cmp a b = -1 ∧ cmp_le cmp a b ∧ ¬ cmp_le cmp b a) ∨
  (cmp a b = 0 ∧ cmp_le cmp a b ∧ cmp_le cmp b a) ∨
  (cmp a b = 1 ∧ ¬ cmp_le cmp a b ∧ cmp_le cmp b a).
Proof.
  unfold cmp_le.
  destruct (tw_flip cmp Htw a b) as [Hab Hab'], (tw_flip cmp Htw b a) as [Hba Hba'].
  destruct (tw_range cmp Htw a b) as [H|[H|H]],
           (tw_range cmp Htw b a) as [H'|[H'|H']]; lia.
Qed.

Lemma cmp_refl a : cmp a a = 0.
Proof. destruct (cmp_cases a a) as [(?&?&?)|[(?&?&?)|(?&?&?)]]; done. Qed.

Lemma cmp_sym a b : cmp a b = 0 → cmp b a = 0.
Proof.
  intros H.
  destruct (tw_flip cmp Htw a b) as [Hab Hab'], (tw_flip cmp Htw b a) as [Hba Hba'].
  destruct (tw_range cmp Htw b a) as [H'|[H'|H']]; lia.
Qed.

Lemma cmp_le_of_eq a b : cmp a b = 0 → cmp_le cmp a b.
Proof. unfold cmp_le. lia. Qed.

Lemma cmp_le_of_lt a b : cmp a b = -1 → cmp_le cmp a b.
Proof. unfold cmp_le. lia. Qed.

Lemma cmp_le_of_gt a b : cmp a b = 1 → cmp_le cmp b a.
Proof. intros H. apply cmp_le_of_lt. by apply (tw_flip cmp Htw). Qed.

Lemma cmp_eq_of_le a b : cmp_le cmp a b → cmp_le cmp b a → cmp a b = 0.
Proof. destruct (cmp_cases a b) as [(?&?&?)|[(?&?&?)|(?&?&?)]]; done. Qed.

#[local] Instance cmp_le_trans : Transitive (cmp_le cmp).
Proof. intros a b c. apply (tw_trans cmp Htw). Qed.

(** Equivalent elements get the same answer against any third element. *)
Lemma cmp_class_l x a p : cmp x a = 0 → cmp x p = cmp a p.
Proof.
  intros Hxa. pose proof (cmp_sym _ _ Hxa) as Hax.
  pose proof (cmp_le_of_eq _ _ Hxa) as Lxa. pose proof (cmp_le_of_eq _ _ Hax) as Lax.
  assert (cmp_le cmp x p ↔ cmp_le cmp a p) as E1.
  { split; intros ?; [by trans x|by trans a]. }
  assert (cmp_le cmp p x ↔ cmp_le cmp p a) as E2.
  { split; intros ?; [by trans x|by trans a]. }
  destruct (cmp_cases x p) as [(->&L1&L2)|[(->&L1&L2)|(->&L1&L2)]],
           (cmp_cases a p) as [(->&L3&L4)|[(->&L3&L4)|(->&L3&L4)]];
    try done; exfalso; tauto.
Qed.

Lemma sorted_by_strongly xs : sorted_by cmp xs ↔ StronglySorted (cmp_le cmp) xs.
Proof.
  split; [apply Sorted_StronglySorted, _|apply StronglySorted_Sorted].
Qed.

(** *** Equivalence classes *)

Lemma class_of_cons_in a x xs :
  cmp x a = 0 → class_of cmp a (x :: xs) = x :: class_of cmp a xs.
Proof. intros H. unfold class_of. by rewrite filter_cons_True. Qed.

Lemma class_of_cons_out a x xs :
  cmp x a ≠ 0 → class_of cmp a (x :: xs) = class_of cmp a xs.
Proof. intros H. unfold class_of. by rewrite filter_cons_False. Qed.

Lemma class_of_app a xs ys :
  class_of cmp a (xs ++ ys) = class_of cmp a xs ++ class_of cmp a ys.
Proof. apply filter_app. Qed.

Lemma class_of_none a xs :
  (∀ z, z ∈ xs → cmp z a ≠ 0) → class_of cmp a xs = [].
Proof.
  induction xs as [|x xs IH]; intros H; [done|].
  rewrite class_of_cons_out by (apply H; left).
  apply IH. intros z Hz. apply H. by right.
Qed.

Lemma class_of_elem a x xs : x ∈ class_of cmp a xs ↔ cmp x a = 0 ∧ x ∈ xs.
Proof. unfold class_of. by rewrite list_elem_of_filter. Qed.

(** A sorted list is determined by its equivalence classes. *)
Lemma sorted_classes_unique l1 l2 :
  StronglySorted (cmp_le cmp) l1 → StronglySorted (cmp_le cmp) l2 →
  (∀ a, class_of cmp a l1 = class_of cmp a l2) → l1 = l2.
Proof.
  intros H1. revert l2. induction H1 as [|x l1 Hs1 IH Hx]; intros l2 H2 Hcl.
  { destruct l2 as [|y l2]; [done|].
    specialize (Hcl y). by rewrite (class_of_cons_in y y) in Hcl by apply cmp_refl. }
  destruct H2 as [|y l2 Hs2 Hy].
  { specialize (Hcl x). by rewrite (class_of_cons_in x x) in Hcl by apply cmp_refl. }
  rewrite Forall_forall in Hx, Hy.
  assert (cmp y x = 0) as Hyx.
  { destruct (decide (cmp y x = 0)) as [|Hne]; [done|].
    apply cmp_eq_of_le.
    - pose proof (Hcl x) as Hc.
      rewrite (class_of_cons_in x x), (class_of_cons_out x y) in Hc
        by (rewrite ?cmp_refl; done).
      apply Hy. eapply class_of_elem. rewrite <- Hc. left.
    - pose proof (Hcl y) as Hc.
      rewrite (class_of_cons_in y y), class_of_cons_out in Hc
        by (rewrite ?cmp_refl; try done; intros ?; by apply Hne, cmp_sym).
      apply Hx. eapply class_of_elem. rewrite Hc. left. }
  assert (x = y) as <-.
  { specialize (Hcl x).
    rewrite (class_of_cons_in x x), (class_of_cons_in x y) in Hcl
      by (rewrite ?cmp_refl; done).
    congruence. }
  f_equal. apply IH; [done|]. intros a. specialize (Hcl a).
  destruct (decide (cmp x a = 0)).
  - rewrite !class_of_cons_in in Hcl by done. congruence.
  - by rewrite !class_of_cons_out in Hcl.
Qed.

(** *** The merge of two sorted lists *)

#[local] Arguments merge_fun : simpl never.

Lemma merge_fun_strongly l r :
  StronglySorted (cmp_le cmp) l → StronglySorted (cmp_le cmp) r →
  StronglySorted (cmp_le cmp) (merge_fun cmp l r).
Proof.
  intros Hl. revert r. induction Hl as [|x l Hl IHl Hx]; intros r Hr.
  { by rewrite merge_fun_nil_l. }
  induction Hr as [|y r Hr IHr Hy].
  { rewrite merge_fun_nil_r. by constructor. }
  rewrite merge_fun_cons.
  destruct (cmp_cases x y) as [(Hc&L1&L2)|[(Hc&L1&L2)|(Hc&L1&L2)]];
    rewrite Hc; simpl.
  - constructor; [apply IHl; by constructor|].
    rewrite merge_fun_Permutation, Forall_app, Forall_cons.
    split_and!; [done..|]. eapply Forall_impl; [exact Hy|].
    intros z ?. by trans y.
  - constructor; [constructor; [by apply IHl|]|].
    + rewrite merge_fun_Permutation, Forall_app. split; [|done].
      eapply Forall_impl; [exact Hx|]. intros z ?. by trans x.
    + rewrite Forall_cons, merge_fun_Permutation, Forall_app.
      split_and!; [done..|]. eapply Forall_impl; [exact Hy|].
      intros z ?. by trans y.
  - constructor; [done|].
    rewrite merge_fun_Permutation, Forall_app, Forall_cons.
    split_and!; [done| |done]. eapply Forall_impl; [exact Hx|].
    intros z ?. by trans x.
Qed.

(** The merge keeps the order within the class of [a] as long as the two
    inputs hold at most two members of that class between them. *)
Lemma merge_fun_class a l r :
  StronglySorted (cmp_le cmp) l → StronglySorted (cmp_le cmp) r →
  (length (class_of cmp a (l ++ r)) ≤ 2)%nat →
  class_of cmp a (merge_fun cmp l r) = class_of cmp a l ++ class_of cmp a r.
Proof.
  intros Hl. revert r. induction Hl as [|x l Hl IHl Hx]; intros r Hr.
  { by rewrite merge_fun_nil_l. }
  induction Hr as [|y r Hr IHr Hy]; intros Hlen.
  { by rewrite merge_fun_nil_r, app_nil_r. }
  rewrite merge_fun_cons.
  destruct (cmp_cases x y) as [(Hc&L1&L2)|[(Hc&L1&L2)|(Hc&L1&L2)]];
    rewrite Hc; simpl.
  - destruct (decide (cmp x a = 0)) as [Hxa|Hxa].
    + rewrite !(class_of_cons_in a x) by done. rewrite IHl; [done|by constructor|].
      simpl in Hlen. rewrite (class_of_cons_in a x) in Hlen by done.
      simpl in Hlen. lia.
    + rewrite !(class_of_cons_out a x) by done. apply IHl; [by constructor|].
      simpl in Hlen. by rewrite (class_of_cons_out a x) in Hlen.
  - assert (cmp x a = 0 ↔ cmp y a = 0) as Hiff.
    { by rewrite (cmp_class_l x y a Hc). }
    rewrite class_of_app in Hlen.
    destruct (decide (cmp x a = 0)) as [Hxa|Hxa].
    + rewrite !(class_of_cons_in a x), !(class_of_cons_in a y) by tauto.
      rewrite (class_of_cons_in a x), (class_of_cons_in a y), length_app
        in Hlen by tauto.
      simpl in Hlen.
      assert (class_of cmp a l = [] ∧ class_of cmp a r = []) as [El Er].
      { destruct (class_of cmp a l), (class_of cmp a r); simpl in Hlen;
          first [done|lia]. }
      rewrite IHl; [by rewrite El, Er|done|].
      rewrite class_of_app, El, Er. simpl. lia.
    + rewrite !(class_of_cons_out a x), !(class_of_cons_out a y) by tauto.
      apply IHl; [done|].
      rewrite (class_of_cons_out a x), (class_of_cons_out a y), length_app
        in Hlen by tauto.
      by rewrite class_of_app, length_app.
  - assert (length (class_of cmp a ((x :: l) ++ r)) ≤ 2)%nat as Hlen'.
    { etrans; [|exact Hlen]. rewrite !class_of_app, !length_app.
      apply Nat.add_le_mono_l.
      destruct (decide (cmp y a = 0)).
      - rewrite (class_of_cons_in a y) by done. simpl. lia.
      - by rewrite (class_of_cons_out a y). }
    destruct (decide (cmp y a = 0)) as [Hya|Hya].
    + rewrite !(class_of_cons_in a y) by done. rewrite IHr by done.
      rewrite (class_of_none a (x :: l)); [done|].
      intros z Hz Hza. apply L1.
      assert (cmp z y = 0) as Hzy.
      { apply cmp_eq_of_le.
        - trans a; [by apply cmp_le_of_eq|by apply cmp_le_of_eq, cmp_sym].
        - trans a; [by apply cmp_le_of_eq|by apply cmp_le_of_eq, cmp_sym]. }
      apply elem_of_cons in Hz as [->|Hz]; [by apply cmp_le_of_eq|].
      trans z; [|by apply cmp_le_of_eq].
      rewrite Forall_forall in Hx. by apply Hx.
    + rewrite !(class_of_cons_out a y) by done. by apply IHr.
Qed.

End Order.

(** ** Merge sort *)

Section MergeSort.
Context {A : Type}.
Variable cmp : A → A → Z.

(** More fuel never changes a result. *)
Lemma merged_loop_fuel_mono (xs ys : list A) fuel fuel' st st' :
  (fuel ≤ fuel')%nat →
  merged_loop cmp fuel xs ys st = Done st' →
  merged_loop cmp fuel' xs ys st = Done st'.
Proof.
  revert fuel' st. induction fuel as [|fuel IH]; intros fuel' st Hle;
    destruct (merged_guard xs ys st) eqn:Hg.
  - simpl. by rewrite Hg.
  - by rewrite !merged_loop_exit.
  - destruct fuel' as [|fuel']; [lia|]. simpl. rewrite Hg.
    intros (st1 & -> & Hloop)%bind_Done_inv. simpl. apply IH; [lia|done].
  - by rewrite !merged_loop_exit.
Qed.

Lemma merged_fuel_mono (xs ys : list A) fuel fuel' out :
  (fuel ≤ fuel')%nat →
  _merged cmp fuel xs ys = Done out → _merged cmp fuel' xs ys = Done out.
Proof.
  intros Hle. unfold _merged. intros (st & Hloop & Hout)%bind_Done_inv.
  by rewrite (merged_loop_fuel_mono _ _ _ _ _ _ Hle Hloop).
Qed.

Lemma merge_sorted_fuel_mono fuel fuel' (xs out : list A) :
  (fuel ≤ fuel')%nat →
  merge_sorted cmp fuel xs = Done out → merge_sorted cmp fuel' xs = Done out.
Proof.
  revert fuel' xs out. induction fuel as [|fuel IH]; intros fuel' xs out Hle; [done|].
  destruct fuel' as [|fuel']; [lia|]. simpl.
  destruct (length (deepcopy xs) <=? 1)%nat; [done|].
  intros (l & Hl & (r & Hr & Hm)%bind_Done_inv)%bind_Done_inv.
  rewrite (IH fuel' _ _ ltac:(lia) Hl). simpl.
  rewrite (IH fuel' _ _ ltac:(lia) Hr). simpl.
  eapply merged_fuel_mono; [|done]. lia.
Qed.

Lemma merge_sorted_small fuel (xs : list A) :
  (length xs ≤ 1)%nat → merge_sorted cmp (S fuel) xs = Done xs.
Proof.
  intros H. simpl. unfold deepcopy.
  by rewrite (proj2 (Nat.leb_le _ _) H).
Qed.

Lemma merge_sorted_large fuel (xs : list A) :
  (2 ≤ length xs)%nat →
  merge_sorted cmp (S fuel) xs =
    lmerge ← merge_sorted cmp fuel (take (midpoint xs) xs);
    rmerge ← merge_sorted cmp fuel (drop (midpoint xs) xs);
    _merged cmp fuel lmerge rmerge.
Proof.
  intros H. simpl. unfold deepcopy.
  by rewrite (proj2 (Nat.leb_gt _ _)) by lia.
Qed.

Lemma midpoint_bounds (xs : list A) :
  (2 ≤ length xs)%nat →
  (0 < midpoint xs ∧ midpoint xs < length xs)%nat.
Proof.
  intros H. unfold midpoint.
  pose proof (Nat.div_mod_eq (length xs) 2).
  pose proof (Nat.mod_upper_bound (length xs) 2). lia.
Qed.

Hypothesis Hrange : in_range cmp.

(** The recursion scheme of [merge_sorted]: a property of (input, output)
    pairs that holds for lists of at most one element and is carried over
    the merge of the sorted halves holds for every run with enough fuel. *)
Lemma merge_sorted_rec (P : list A → list A → Prop) :
  (∀ xs, (length xs ≤ 1)%nat → P xs xs) →
  (∀ xs l r, (2 ≤ length xs)%nat →
     l ≡ₚ take (midpoint xs) xs → r ≡ₚ drop (midpoint xs) xs →
     P (take (midpoint xs) xs) l → P (drop (midpoint xs) xs) r →
     P xs (merge_fun cmp l r)) →
  ∀ fuel xs, (length xs < fuel)%nat →
    ∃ out, merge_sorted cmp fuel xs = Done out ∧ out ≡ₚ xs ∧ P xs out.
Proof.
  intros Hbase Hstep fuel. induction fuel as [|fuel IH]; intros xs Hfuel; [lia|].
  destruct (decide (length xs ≤ 1)%nat) as [Hlen|Hlen].
  { exists xs. rewrite merge_sorted_small by done. auto. }
  rewrite merge_sorted_large by lia.
  pose proof (midpoint_bounds xs ltac:(lia)) as [Hm1 Hm2].
  destruct (IH (take (midpoint xs) xs)) as (l & -> & Hpl & HPl).
  { rewrite length_take. lia. }
  destruct (IH (drop (midpoint xs) xs)) as (r & -> & Hpr & HPr).
  { rewrite length_drop. lia. }
  simpl. exists (merge_fun cmp l r). split_and!.
  - apply merged_spec; [done|].
    rewrite (Permutation_length Hpl), (Permutation_length Hpr).
    rewrite length_take, length_drop. lia.
  - rewrite merge_fun_Permutation, Hpl, Hpr. by rewrite take_drop.
  - apply Hstep; [lia|done..].
Qed.

Lemma merge_sorted_Permutation fuel (xs : list A) :
  (length xs < fuel)%nat →
  ∃ out, merge_sorted cmp fuel xs = Done out ∧ out ≡ₚ xs.
Proof.
  intros Hfuel.
  destruct (merge_sorted_rec (λ _ _, True)) with (fuel := fuel) (xs := xs)
    as (out & ? & ? & _); eauto.
Qed.

End MergeSort.

Section MergeSortOrder.
Context {A : Type}.
Variable cmp : A → A → Z.
Hypothesis Htw : three_way cmp.

Lemma merge_sorted_sorted fuel (xs : list A) :
  (length xs < fuel)%nat →
  ∃ out, merge_sorted cmp fuel xs = Done out ∧ out ≡ₚ xs ∧ sorted_by cmp out.
Proof.
  apply (merge_sorted_rec cmp (tw_range cmp Htw) (λ _ out, sorted_by cmp out)).
  - intros [|x [|??]] Hlen; simpl in Hlen; [| |lia]; repeat constructor.
  - intros ys l r _ _ _ Hl Hr. rewrite sorted_by_strongly in * by done.
    by apply merge_fun_strongly.
Qed.

(** Merge sort keeps the order within every class of at most two members. *)
Lemma merge_sorted_small_classes fuel (xs : list A) :
  (length xs < fuel)%nat →
  ∃ out, merge_sorted cmp fuel xs = Done out ∧ out ≡ₚ xs ∧
    sorted_by cmp out ∧
    ∀ a, (length (class_of cmp a xs) ≤ 2)%nat →
         class_of cmp a out = class_of cmp a xs.
Proof.
  intros Hfuel.
  destruct (merge_sorted_rec cmp (tw_range cmp Htw) (λ ys out,
      sorted_by cmp out ∧
      ∀ a, (length (class_of cmp a ys) ≤ 2)%nat →
           class_of cmp a out = class_of cmp a ys)) with (fuel := fuel) (xs := xs)
    as (out & ? & ? & ? & ?); [| |done|by exists out].
  - intros [|x [|??]] Hlen; simpl in Hlen; [| |lia];
      (split; [repeat constructor|done]).
  - intros ys l r _ Hpl Hpr [Hl Hcl] [Hr Hcr].
    rewrite sorted_by_strongly in * by done. split.
    { by apply merge_fun_strongly. }
    intros a Hlen.
    rewrite <- (take_drop (midpoint ys) ys) in Hlen at 1.
    rewrite class_of_app, length_app in Hlen.
    rewrite merge_fun_class; [|done..|].
    + rewrite Hcl, Hcr by lia.
      by rewrite <- class_of_app, take_drop.
    + rewrite class_of_app, length_app, Hcl, Hcr by lia. lia.
Qed.

End MergeSortOrder.

(** ** Copying quicksort *)

Section QuickSorted.
Context {A : Type}.
Variable cmp : A → A → Z.

(** The bucket loop is three filters, whatever the comparator answers. *)
Lemma bucket_fold pivot (xs : list A) b :
  foldl (bucket_body cmp pivot) b xs =
    Buckets (less_than_pivot b ++ filter (λ x, cmp x pivot = -1) xs)
            (greater_than_pivot b ++ filter (λ x, cmp x pivot = 1) xs)
            (equal_to_pivot b ++ filter (λ x, cmp x pivot = 0) xs).
Proof.
  revert b. induction xs as [|x xs IH]; intros [l g e]; simpl.
  { by rewrite !app_nil_r. }
  rewrite IH. unfold bucket_body. rewrite !filter_cons.
  destruct (Z.eqb_spec (cmp x pivot) (-1)) as [E1|E1];
    destruct (Z.eqb_spec (cmp x pivot) 1) as [E2|E2];
    destruct (Z.eqb_spec (cmp x pivot) 0) as [E3|E3];
    try lia; simpl;
    repeat case_decide; try lia; by rewrite <- ?app_assoc.
Qed.

Lemma quick_sorted_small (rnd : nat → nat) fuel (xs : list A) k :
  (length xs ≤ 1)%nat → quick_sorted cmp rnd (S fuel) xs k = Done (xs, k).
Proof.
  intros H. simpl. unfold deepcopy. by rewrite (proj2 (Nat.leb_le _ _) H).
Qed.

Lemma quick_sorted_large (rnd : nat → nat) fuel (xs : list A) k pivot :
  (2 ≤ length xs)%nat → xs !! (rnd k `mod` length xs)%nat = Some pivot →
  quick_sorted cmp rnd (S fuel) xs k =
    '(less, k) ← quick_sorted cmp rnd fuel (filter (λ x, cmp x pivot = -1) xs) (S k);
    '(greater, k) ← quick_sorted cmp rnd fuel (filter (λ x, cmp x pivot = 1) xs) k;
    Done ((less ++ filter (λ x, cmp x pivot = 0) xs) ++ greater, k).
Proof.
  intros H Hp. simpl. unfold deepcopy, random_choice.
  rewrite (proj2 (Nat.leb_gt _ _)) by lia.
  rewrite (getitem_Some _ _ _ Hp). simpl. by rewrite bucket_fold.
Qed.

Lemma random_pivot (rnd : nat → nat) (xs : list A) k :
  (0 < length xs)%nat →
  ∃ pivot, xs !! (rnd k `mod` length xs)%nat = Some pivot ∧ pivot ∈ xs.
Proof.
  intros H.
  destruct (lookup_lt_is_Some_2 xs (rnd k `mod` length xs)%nat) as [pivot Hp].
  { apply Nat.mod_upper_bound. lia. }
  exists pivot. split; [done|]. by eapply list_elem_of_lookup_2.
Qed.

Lemma quick_sorted_fuel_mono (rnd : nat → nat) fuel fuel' (xs : list A) k r :
  (fuel ≤ fuel')%nat →
  quick_sorted cmp rnd fuel xs k = Done r → quick_sorted cmp rnd fuel' xs k = Done r.
Proof.
  revert fuel' xs k r. induction fuel as [|fuel IH]; intros fuel' xs k r Hle; [done|].
  destruct fuel' as [|fuel']; [lia|]. simpl.
  destruct (length (deepcopy xs) <=? 1)%nat; [done|].
  intros ([pivot k1] & -> & H)%bind_Done_inv. simpl in *.
  apply bind_Done_inv in H as ([less k2] & Hl & H). simpl in H.
  apply bind_Done_inv in H as ([greater k3] & Hg & H). simpl in H.
  rewrite (IH fuel' _ _ _ ltac:(lia) Hl). simpl.
  by rewrite (IH fuel' _ _ _ ltac:(lia) Hg).
Qed.

(** A comparator that never answers [0] for the pivot against itself keeps
    the pivot in a bucket that is sorted again: the recursion has no end. *)
Lemma quick_sorted_all_less (rnd : nat → nat) (xs : list A) :
  (2 ≤ length xs)%nat → (∀ a b, cmp a b = -1) →
  ∀ fuel k, quick_sorted cmp rnd fuel xs k = Timeout.
Proof.
  intros Hlen Hc fuel. induction fuel as [|fuel IH]; intros k; [done|].
  destruct (random_pivot rnd xs k) as (pivot & Hp & _); [lia|].
  rewrite (quick_sorted_large _ _ _ _ _ Hlen Hp).
  replace (filter (λ x, cmp x pivot = -1) xs) with xs; [by rewrite IH|].
  clear -Hc. induction xs as [|x xs IHxs]; [done|].
  by rewrite filter_cons_True, <- IHxs.
Qed.

Hypothesis Hrange : in_range cmp.

Lemma buckets_Permutation pivot (xs : list A) :
  (filter (λ x, cmp x pivot = -1) xs ++ filter (λ x, cmp x pivot = 0) xs) ++
    filter (λ x, cmp x pivot = 1) xs ≡ₚ xs.
Proof.
  induction xs as [|x xs IH]; [done|]. rewrite !filter_cons.
  destruct (Hrange x pivot) as [H|[H|H]]; repeat case_decide; try lia; simpl.
  - by rewrite IH.
  - rewrite <- app_assoc. simpl. rewrite <- Permutation_middle.
    by rewrite app_assoc, IH.
  - rewrite <- Permutation_middle. by rewrite IH.
Qed.

(** Whenever a run of [quick_sorted] returns, it returns a rearrangement. *)
Lemma quick_sorted_Done_Permutation (rnd : nat → nat) fuel (xs : list A) k out k' :
  quick_sorted cmp rnd fuel xs k = Done (out, k') → out ≡ₚ xs.
Proof.
  revert xs k out k'. induction fuel as [|fuel IH]; intros xs k out k' H; [done|].
  destruct (decide (length xs ≤ 1)%nat) as [Hlen|Hlen].
  { rewrite quick_sorted_small in H by done. by simplify_eq. }
  destruct (random_pivot rnd xs k) as (pivot & Hp & _); [lia|].
  rewrite (quick_sorted_large _ _ _ _ pivot) in H by (done || lia).
  apply bind_Done_inv in H as ([l k1] & Hl & H). simpl in H.
  apply bind_Done_inv in H as ([g k2] & Hg & H). simpl in H. simplify_eq.
  rewrite (IH _ _ _ _ Hl), (IH _ _ _ _ Hg). apply buckets_Permutation.
Qed.

(** The recursion scheme of [quick_sorted], for every generator. *)
Lemma quick_sorted_rec (P : list A → list A → Prop) :
  (∀ xs, (length xs ≤ 1)%nat → P xs xs) →
  (∀ xs pivot l g, (2 ≤ length xs)%nat → pivot ∈ xs →
     l ≡ₚ filter (λ x, cmp x pivot = -1) xs →
     g ≡ₚ filter (λ x, cmp x pivot = 1) xs →
     P (filter (λ x, cmp x pivot = -1) xs) l →
     P (filter (λ x, cmp x pivot = 1) xs) g →
     P xs ((l ++ filter (λ x, cmp x pivot = 0) xs) ++ g)) →
  ∀ (rnd : nat → nat) fuel xs k, (length xs < fuel)%nat → (∀ x, x ∈ xs → cmp x x = 0) →
    ∃ out k', quick_sorted cmp rnd fuel xs k = Done (out, k') ∧
      out ≡ₚ xs ∧ P xs out.
Proof.
  intros Hbase Hstep rnd fuel.
  induction fuel as [|fuel IH]; intros xs k Hfuel Hrefl; [lia|].
  destruct (decide (length xs ≤ 1)%nat) as [Hlen|Hlen].
  { exists xs, k. rewrite quick_sorted_small by done. auto. }
  destruct (random_pivot rnd xs k) as (pivot & Hp & Hin); [lia|].
  rewrite (quick_sorted_large _ _ _ _ pivot) by (done || lia).
  pose proof (Hrefl _ Hin) as Hpp.
  edestruct (IH (filter (λ x, cmp x pivot = -1) xs)) as (l & k1 & -> & Hpl & HPl).
  { pose proof (length_filter_lt (λ x, cmp x pivot = -1) xs pivot Hin). lia. }
  { intros x [_ Hx]%list_elem_of_filter. by apply Hrefl. }
  simpl.
  edestruct (IH (filter (λ x, cmp x pivot = 1) xs)) as (g & k2 & -> & Hpg & HPg).
  { pose proof (length_filter_lt (λ x, cmp x pivot = 1) xs pivot Hin). lia. }
  { intros x [_ Hx]%list_elem_of_filter. by apply Hrefl. }
  simpl. eexists _, _. split_and!; [done| |].
  - rewrite Hpl, Hpg. apply buckets_Permutation.
  - apply Hstep; [lia|done..].
Qed.

End QuickSorted.

Section QuickSortedOrder.
Context {A : Type}.
Variable cmp : A → A → Z.
Hypothesis Htw : three_way cmp.

#[local] Instance cmp_le_trans' : Transitive (cmp_le cmp) := cmp_le_trans cmp Htw.

Lemma pairwise_strongly (R : relation A) (xs : list A) :
  (∀ x y, x ∈ xs → y ∈ xs → R x y) → StronglySorted R xs.
Proof.
  induction xs as [|x xs IH]; intros H; constructor.
  - apply IH. intros y z Hy Hz. apply H; by right.
  - apply Forall_forall. intros y Hy. apply H; [left|by right].
Qed.

(** Sorted less-bucket, equal-bucket, sorted greater-bucket: sorted. *)
Lemma buckets_strongly pivot (xs l g : list A) :
  l ≡ₚ filter (λ x, cmp x pivot = -1) xs →
  g ≡ₚ filter (λ x, cmp x pivot = 1) xs →
  StronglySorted (cmp_le cmp) l → StronglySorted (cmp_le cmp) g →
  StronglySorted (cmp_le cmp) ((l ++ filter (λ x, cmp x pivot = 0) xs) ++ g).
Proof.
  intros Hpl Hpg Hl Hg.
  assert (∀ x, x ∈ l → cmp_le cmp x pivot) as Hlp.
  { intros x Hx. rewrite Hpl in Hx. apply list_elem_of_filter in Hx as [Hx _].
    by apply cmp_le_of_lt. }
  assert (∀ x, x ∈ g → cmp_le cmp pivot x) as Hgp.
  { intros x Hx. rewrite Hpg in Hx. apply list_elem_of_filter in Hx as [Hx _].
    by apply cmp_le_of_gt. }
  repeat apply StronglySorted_app_2; try done.
  - intros x y [Hx|[Hx _]%list_elem_of_filter]%elem_of_app Hy.
    + trans pivot; [by apply Hlp|by apply Hgp].
    + trans pivot; [by apply cmp_le_of_eq|by apply Hgp].
  - intros x y Hx [Hy _]%list_elem_of_filter.
    trans pivot; [by apply Hlp|by apply cmp_le_of_eq, cmp_sym].
  - apply pairwise_strongly.
    intros x y [Hx _]%list_elem_of_filter [Hy _]%list_elem_of_filter.
    trans pivot; [by apply cmp_le_of_eq|by apply cmp_le_of_eq, cmp_sym].
Qed.

Lemma class_of_filter_all a (Q : A → Prop) `{∀ x, Decision (Q x)} (xs : list A) :
  (∀ x, cmp x a = 0 → Q x) → class_of cmp a (filter Q xs) = class_of cmp a xs.
Proof.
  intros HQ. induction xs as [|x xs IH]; [done|].
  rewrite filter_cons. destruct (decide (cmp x a = 0)) as [Hx|Hx].
  - rewrite decide_True by auto. by rewrite !class_of_cons_in, IH.
  - rewrite (class_of_cons_out cmp a x xs) by done.
    case_decide; [by rewrite class_of_cons_out|done].
Qed.

Lemma class_of_filter_none a (Q : A → Prop) `{∀ x, Decision (Q x)} (xs : list A) :
  (∀ x, cmp x a = 0 → ¬ Q x) → class_of cmp a (filter Q xs) = [].
Proof.
  intros HQ. apply class_of_none.
  intros z [Hz _]%list_elem_of_filter Hza. by apply (HQ z).
Qed.

(** Splitting into the three buckets does not disturb any class. *)
Lemma class_of_buckets a pivot (xs : list A) :
  class_of cmp a (filter (λ x, cmp x pivot = -1) xs) ++
  class_of cmp a (filter (λ x, cmp x pivot = 0) xs) ++
  class_of cmp a (filter (λ x, cmp x pivot = 1) xs) = class_of cmp a xs.
Proof.
  destruct (tw_range cmp Htw a pivot) as [Hc|[Hc|Hc]].
  - rewrite (class_of_filter_all a (λ x, cmp x pivot = -1)),
      (class_of_filter_none a (λ x, cmp x pivot = 0)),
      (class_of_filter_none a (λ x, cmp x pivot = 1)), ?app_nil_r;
      [done|intros x Hx; rewrite (cmp_class_l cmp Htw x a pivot Hx); lia..].
  - rewrite (class_of_filter_none a (λ x, cmp x pivot = -1)),
      (class_of_filter_all a (λ x, cmp x pivot = 0)),
      (class_of_filter_none a (λ x, cmp x pivot = 1)), ?app_nil_r;
      [done|intros x Hx; rewrite (cmp_class_l cmp Htw x a pivot Hx); lia..].
  - rewrite (class_of_filter_none a (λ x, cmp x pivot = -1)),
      (class_of_filter_none a (λ x, cmp x pivot = 0)),
      (class_of_filter_all a (λ x, cmp x pivot = 1)), ?app_nil_r;
      [done|intros x Hx; rewrite (cmp_class_l cmp Htw x a pivot Hx); lia..].
Qed.

(** Whatever the generator draws, [quick_sorted] returns a sorted
    rearrangement of its input that keeps the order within every class. *)
Lemma quick_sorted_stable (rnd : nat → nat) fuel (xs : list A) k :
  (length xs < fuel)%nat →
  ∃ out k', quick_sorted cmp rnd fuel xs k = Done (out, k') ∧
    out ≡ₚ xs ∧ sorted_by cmp out ∧ stable cmp xs out.
Proof.
  intros Hfuel.
  apply (quick_sorted_rec cmp (tw_range cmp Htw)
           (λ ys out, sorted_by cmp out ∧ stable cmp ys out)); [| |done|].
  - intros [|x [|??]] Hlen; simpl in Hlen; [| |lia];
      (split; [repeat constructor|done]).
  - intros ys pivot l g _ _ Hpl Hpg [Hl Hsl] [Hg Hsg].
    rewrite sorted_by_strongly in * by done. split.
    { by apply buckets_strongly. }
    intros a. rewrite !class_of_app, Hsl, Hsg, <- app_assoc.
    apply class_of_buckets.
  - intros x _. by apply cmp_refl.
Qed.

(** A sorted list that keeps the relative order inside every class of [xs]
    is unique, so every run of [quick_sorted] returns it. *)
Lemma sorted_stable_unique (xs out1 out2 : list A) :
  sorted_by cmp out1 → stable cmp xs out1 →
  sorted_by cmp out2 → stable cmp xs out2 → out1 = out2.
Proof.
  rewrite !sorted_by_strongly by done. intros H1 S1 H2 S2.
  apply (sorted_classes_unique cmp Htw); [done..|].
  intros a. by rewrite S1, S2.
Qed.

End QuickSortedOrder.

(** ** In-place quicksort *)

Section QuickSort.
Context {A : Type}.
Variable cmp : A → A → Z.

Lemma py_index_in n i :
  0 ≤ i < Z.of_nat n → py_index n i = Done (Z.to_nat i).
Proof.
  intros H. unfold py_index.
  rewrite (proj2 (Z.leb_le _ _)) by lia. by rewrite (proj2 (Z.ltb_lt _ _)) by lia.
Qed.

Lemma getitem_z_in (array : list A) i :
  0 ≤ i < Z.of_nat (length array) →
  ∃ x, array !! Z.to_nat i = Some x ∧ getitem_z array i = Done x.
Proof.
  intros H. destruct (lookup_lt_is_Some_2 array (Z.to_nat i)) as [x Hx]; [lia|].
  exists x. split; [done|]. unfold getitem_z. rewrite py_index_in by done.
  simpl. by apply getitem_Some.
Qed.

Lemma setitem_z_in (array : list A) i v :
  0 ≤ i < Z.of_nat (length array) →
  setitem_z array i v = Done (<[Z.to_nat i := v]> array).
Proof. intros H. unfold setitem_z. by rewrite py_index_in. Qed.

(** Exchanging two cells rearranges the list. *)
Lemma exchange_Permutation (array : list A) i j x y :
  array !! i = Some x → array !! j = Some y →
  <[j := x]> (<[i := y]> array) ≡ₚ array.
Proof.
  intros Hi Hj. apply Permutation_inj. split; [by rewrite !length_insert|].
  pose proof (lookup_lt_Some _ _ _ Hi). pose proof (lookup_lt_Some _ _ _ Hj).
  exists (λ n, if decide (n = i) then j else if decide (n = j) then i else n).
  split.
  - intros n m. repeat case_decide; congruence.
  - intros n. destruct (decide (n = j)) as [->|Hnj].
    + rewrite list_lookup_insert_eq by (by rewrite length_insert).
      case_decide; congruence.
    + rewrite list_lookup_insert_ne by done.
      destruct (decide (n = i)) as [->|Hni].
      * by rewrite list_lookup_insert_eq.
      * by rewrite list_lookup_insert_ne.
Qed.

Lemma swap_items_in (array : list A) i j :
  0 ≤ i < Z.of_nat (length array) → 0 ≤ j < Z.of_nat (length array) →
  ∃ array', swap_items array i j = Done array' ∧ array' ≡ₚ array.
Proof.
  intros Hi Hj. unfold swap_items.
  destruct (getitem_z_in array i Hi) as (x & Hx & ->).
  destruct (getitem_z_in array j Hj) as (y & Hy & ->). simpl.
  rewrite setitem_z_in by done. simpl.
  rewrite setitem_z_in by (by rewrite length_insert).
  eexists. split; [done|]. by eapply exchange_Permutation.
Qed.

(** The first pass through the loop of [_partition] already leaves the
    function: the returned index is [lo] or [lo + 1]. *)
Lemma partition_body_in (array : list A) lo hi pivot :
  0 ≤ lo → lo < hi → hi < Z.of_nat (length array) →
  ∃ array' p, partition_body cmp hi pivot lo (array, lo - 1) =
                Done (Return (array', p)) ∧
    array' ≡ₚ array ∧ lo ≤ p ≤ lo + 1.
Proof.
  intros H0 Hlt Hhi. unfold partition_body.
  destruct (getitem_z_in array lo) as (aj & _ & ->); [lia|]. run.
  destruct (Z.eqb_spec (cmp aj pivot) (-1)) as [E1|E1];
    destruct (Z.eqb_spec (cmp aj pivot) 0) as [E2|E2]; try lia.
  - destruct (swap_items_in array (lo - 1 + 1) lo) as (a1 & -> & Hp1); [lia..|].
    run. pose proof (Permutation_length Hp1) as Hl1.
    destruct (swap_items_in a1 (lo - 1 + 1 + 1) hi) as (a2 & -> & Hp2); [lia..|].
    run. eexists _, _. split; [done|]. split; [by rewrite Hp2|lia].
  - run.
    destruct (swap_items_in array (lo - 1 + 1) lo) as (a1 & -> & Hp1); [lia..|].
    run. pose proof (Permutation_length Hp1) as Hl1.
    destruct (swap_items_in a1 (lo - 1 + 1 + 1) hi) as (a2 & -> & Hp2); [lia..|].
    run. eexists _, _. split; [done|]. split; [by rewrite Hp2|lia].
  - run.
    destruct (swap_items_in array (lo - 1 + 1) hi) as (a2 & -> & Hp2); [lia..|].
    run. eexists _, _. split; [done|]. split; [done|lia].
Qed.

Lemma partition_in (array : list A) lo hi :
  0 ≤ lo → lo < hi → hi < Z.of_nat (length array) →
  ∃ array' p, _partition cmp array lo hi = Done (array', Some p) ∧
    array' ≡ₚ array ∧ lo ≤ p ≤ lo + 1.
Proof.
  intros H0 Hlt Hhi. unfold _partition.
  destruct (getitem_z_in array hi) as (pivot & _ & ->); [lia|]. run.
  rewrite seqZ_cons by lia. cbn [for_each].
  destruct (partition_body_in array lo hi pivot) as (a' & p & -> & Hp & Hlo);
    [done..|].
  run. by exists a', p.
Qed.

(** [_quicksort] runs to the end without an exception and only rearranges. *)
Lemma quicksort_Permutation fuel (array : list A) lo hi :
  0 ≤ lo → hi < Z.of_nat (length array) → (Z.to_nat (hi - lo) < fuel)%nat →
  ∃ out, _quicksort cmp fuel array lo hi = Done out ∧ out ≡ₚ array.
Proof.
  revert array lo hi. induction fuel as [|fuel IH]; intros array lo hi H0 Hhi Hfuel;
    [lia|].
  cbn [_quicksort]. destruct (Z.ltb_spec lo hi) as [Hlt|Hge]; [|by exists array].
  destruct (partition_in array lo hi) as (a1 & p & -> & Hp1 & Hlo); [done..|].
  run. pose proof (Permutation_length Hp1) as Hl1.
  destruct (IH a1 lo (p - 1)) as (a2 & -> & Hp2); [lia..|].
  run. pose proof (Permutation_length Hp2) as Hl2.
  destruct (IH a2 (p + 1) hi) as (a3 & -> & Hp3); [lia..|].
  run. exists a3. split; [done|]. by rewrite Hp3, Hp2.
Qed.

Lemma quicksort_fuel_mono fuel fuel' (array : list A) lo hi out :
  (fuel ≤ fuel')%nat →
  _quicksort cmp fuel array lo hi = Done out →
  _quicksort cmp fuel' array lo hi = Done out.
Proof.
  revert fuel' array lo hi out.
  induction fuel as [|fuel IH]; intros fuel' array lo hi out Hle; [done|].
  destruct fuel' as [|fuel']; [lia|]. cbn [_quicksort].
  destruct (lo <? hi); [|done].
  intros ([a1 [p|]] & -> & H)%bind_Done_inv; [|done]. run.
  apply bind_Done_inv in H as (a2 & H2 & H).
  apply bind_Done_inv in H as (a3 & H3 & H).
  rewrite (IH fuel' _ _ _ _ ltac:(lia) H2). run.
  by rewrite (IH fuel' _ _ _ _ ltac:(lia) H3).
Qed.

Lemma quick_sort_Permutation fuel (xs : list A) :
  (length xs < fuel)%nat →
  ∃ out, quick_sort cmp fuel xs = Done out ∧ out ≡ₚ xs.
Proof. intros H. apply quicksort_Permutation; lia. Qed.

End QuickSort.

(** ** The comparators of the module obey the contract *)

Lemma cmp_standard_three_way : three_way cmp_standard.
Proof.
  split.
  - intros a b. unfold cmp_standard.
    destruct (Z.ltb_spec a b), (Z.ltb_spec b a); lia.
  - intros a b. unfold cmp_standard.
    destruct (Z.ltb_spec a b), (Z.ltb_spec b a); lia.
  - intros a b c. unfold cmp_le, cmp_standard.
    destruct (Z.ltb_spec a b), (Z.ltb_spec b a), (Z.ltb_spec b c),
      (Z.ltb_spec c b), (Z.ltb_spec a c), (Z.ltb_spec c a); lia.
Qed.

Lemma three_way_projection {A B} (f : B → A) (cmp : A → A → Z) :
  three_way cmp → three_way (λ a b, cmp (f a) (f b)).
Proof.
  intros [Hr Hf Ht]. split.
  - intros a b. apply Hr.
  - intros a b. apply Hf.
  - intros a b c. apply Ht.
Qed.

Lemma cmp_first_three_way {B} : three_way (@cmp_first B).
Proof. apply (three_way_projection fst), cmp_standard_three_way. Qed.

Lemma cmp_last_digit_three_way : three_way cmp_last_digit.
Proof. apply (three_way_projection (λ a, a `mod` 10)), cmp_standard_three_way. Qed.

(** ** Sortedness, pair by pair *)

Lemma sorted_by_adjacent {A} (cmp : A → A → Z) (xs : list A) :
  sorted_by cmp xs ↔
    ∀ i x y, xs !! i = Some x → xs !! S i = Some y → cmp x y ≠ 1.
Proof.
  unfold sorted_by. split.
  - induction 1 as [|x xs Hs IH Hhd]; intros i a b Ha Hb; [done|].
    destruct i as [|i]; simpl in *.
    + simplify_eq. destruct Hhd as [|y ys Hxy]; by simplify_eq/=.
    + by eapply IH.
  - induction xs as [|x xs IH]; intros H; constructor.
    + apply IH. intros i a b Ha Hb. by apply (H (S i)).
    + destruct xs as [|y ys]; constructor. by apply (H O).
Qed.

(** ** Programs over the store *)

Section Store.
Context {A : Type}.
Implicit Types (σ : gmap nat (list A)) (W : gset nat).

Lemma prog_bind_inv {T U} (m : prog A T) (k : T → prog A U) σ r :
  (m ≫= k) σ = Done r → ∃ u σ1, m σ = Done (u, σ1) ∧ k u σ1 = Done r.
Proof.
  unfold mbind, prog_bind. destruct (m σ) as [[u σ1]| |]; [|done..].
  intros H. by exists u, σ1.
Qed.

Lemma prog_bind_Done {T U} (m : prog A T) (k : T → prog A U) σ u σ1 :
  m σ = Done (u, σ1) → (m ≫= k) σ = k u σ1.
Proof. intros H. unfold mbind, prog_bind. by rewrite H. Qed.

Lemma load_inv l σ v σ' : load l σ = Done (v, σ') → σ !! l = Some v ∧ σ' = σ.
Proof. unfold load. destruct (σ !! l); intros ?; by simplify_eq. Qed.

Lemma lift_inv {T} (o : outcome T) σ v σ' :
  lift o σ = Done (v, σ') → o = Done v ∧ σ' = σ.
Proof. unfold lift. destruct o; intros ?; by simplify_eq. Qed.

Lemma alloc_inv (v : list A) σ l σ' :
  alloc v σ = Done (l, σ') → (l ∉ dom σ) ∧ σ' = <[l := v]> σ.
Proof.
  unfold alloc. intros ?. simplify_eq. split; [apply is_fresh|done].
Qed.

(** *** What programs leave alone *)

Lemma preserves_mono {T} W W' (m : prog A T) :
  W ⊆ W' → preserves W m → preserves W' m.
Proof.
  intros HW Hm σ v σ' Hrun. destruct (Hm σ v σ' Hrun) as [Hd Hl].
  split; [done|]. intros l ? ?. apply Hl; set_solver.
Qed.

Lemma preserves_pure {T} W (v : T) : preserves W (pure (A := A) v).
Proof. intros σ u σ' ?. unfold pure in *. by simplify_eq. Qed.

Lemma preserves_fail {T} W e : preserves W (fail (A := A) (T := T) e).
Proof. by intros σ u σ' ?. Qed.

Lemma preserves_diverge {T} W : preserves W (diverge (A := A) (T := T)).
Proof. by intros σ u σ' ?. Qed.

Lemma preserves_lift {T} W (o : outcome T) : preserves W (lift (A := A) o).
Proof. intros σ u σ' [_ ->]%lift_inv. done. Qed.

Lemma preserves_load W l : preserves W (load (A := A) l).
Proof. intros σ u σ' [_ ->]%load_inv. done. Qed.

Lemma preserves_bind {T U} W (m : prog A T) (k : T → prog A U) :
  preserves W m → (∀ u, preserves W (k u)) → preserves W (m ≫= k).
Proof.
  intros Hm Hk σ v σ' (u & σ1 & H1 & H2)%prog_bind_inv.
  destruct (Hm _ _ _ H1) as [Hd1 Hl1], (Hk u _ _ _ H2) as [Hd2 Hl2].
  split; [set_solver|]. intros l Hl HW.
  rewrite Hl2 by set_solver. by apply Hl1.
Qed.

Lemma preserves_alloc W (v : list A) : preserves W (alloc v).
Proof.
  intros σ l σ' [Hl ->]%alloc_inv. split; [set_solver|].
  intros l' Hl' _. apply lookup_insert_ne. set_solver.
Qed.

(** A program may write to an object it has created itself. *)
Lemma preserves_alloc_bind {U} W (v : list A) (k : nat → prog A U) :
  (∀ l, preserves (W ∪ {[l]}) (k l)) → preserves W (alloc v ≫= k).
Proof.
  intros Hk σ u σ' (l & σ1 & [Hl ->]%alloc_inv & H2)%prog_bind_inv.
  destruct (Hk l _ _ _ H2) as [Hd2 Hl2].
  split; [set_solver|]. intros l' Hl' HW.
  assert (l ≠ l') as Hne by (intros ->; done).
  rewrite Hl2; [by apply lookup_insert_ne| |].
  - apply elem_of_dom. rewrite lookup_insert_ne by done. by apply elem_of_dom.
  - intros [?|?%elem_of_singleton]%elem_of_union; [done|by subst].
Qed.

Lemma preserves_update W l (v : list A) : l ∈ W → preserves W (update l v).
Proof.
  intros HW σ u σ' [= _ <-]. split; [set_solver|].
  intros l' _ Hl'. apply lookup_insert_ne. set_solver.
Qed.

Lemma preserves_list_len W l : preserves W (list_len (A := A) l).
Proof. apply preserves_bind; [apply preserves_load|intros; apply preserves_pure]. Qed.

Lemma preserves_list_getitem W l i : preserves W (list_getitem (A := A) l i).
Proof. apply preserves_bind; [apply preserves_load|intros; apply preserves_lift]. Qed.

Lemma preserves_list_getitem_z W l i : preserves W (list_getitem_z (A := A) l i).
Proof. apply preserves_bind; [apply preserves_load|intros; apply preserves_lift]. Qed.

Lemma preserves_list_setitem_z W l i (x : A) :
  l ∈ W → preserves W (list_setitem_z l i x).
Proof.
  intros HW. apply preserves_bind; [apply preserves_load|intros v].
  apply preserves_bind; [apply preserves_lift|intros v']. by apply preserves_update.
Qed.

Lemma preserves_list_append W l (x : A) : l ∈ W → preserves W (list_append l x).
Proof.
  intros HW. apply preserves_bind; [apply preserves_load|intros v].
  by apply preserves_update.
Qed.

Lemma preserves_list_slice_from W l n : preserves W (list_slice_from (A := A) l n).
Proof. apply preserves_bind; [apply preserves_load|intros; apply preserves_alloc]. Qed.

Lemma preserves_list_slice_to W l n : preserves W (list_slice_to (A := A) l n).
Proof. apply preserves_bind; [apply preserves_load|intros; apply preserves_alloc]. Qed.

Lemma preserves_list_concat W l1 l2 : preserves W (list_concat (A := A) l1 l2).
Proof.
  apply preserves_bind; [apply preserves_load|intros v1].
  apply preserves_bind; [apply preserves_load|intros; apply preserves_alloc].
Qed.

Lemma preserves_list_deepcopy W l : preserves W (list_deepcopy (A := A) l).
Proof. apply preserves_bind; [apply preserves_load|intros; apply preserves_alloc]. Qed.

Lemma preserves_for_items {T} W (body : T → prog A unit) items :
  (∀ x, preserves W (body x)) → preserves W (for_items body items).
Proof.
  intros Hb. induction items as [|x items IH]; simpl.
  - apply preserves_pure.
  - apply preserves_bind; [apply Hb|by intros].
Qed.

Lemma preserves_for_flow {J S R} W (body : J → S → prog A (flow S R)) js s :
  (∀ j s, preserves W (body j s)) → preserves W (for_flow body js s).
Proof.
  intros Hb. revert s. induction js as [|j js IH]; intros s; simpl.
  - apply preserves_pure.
  - apply preserves_bind; [apply Hb|intros [s'|v]]; [apply IH|apply preserves_pure].
Qed.

(** *** Which reference programs return *)

Lemma returns_new_alloc (v : list A) : returns_new (alloc v).
Proof. intros σ l σ' [Hl ->]%alloc_inv. split; [done|set_solver]. Qed.

Lemma returns_new_bind {T} W (m : prog A T) (k : T → prog A nat) :
  preserves W m → (∀ u, returns_new (k u)) → returns_new (m ≫= k).
Proof.
  intros Hm Hk σ l σ' (u & σ1 & H1 & H2)%prog_bind_inv.
  destruct (Hm _ _ _ H1) as [Hd1 _], (Hk u _ _ _ H2) as [Hn Hin].
  split; [set_solver|done].
Qed.

Lemma returns_new_list_concat l1 l2 : returns_new (list_concat (A := A) l1 l2).
Proof.
  apply (returns_new_bind ∅); [apply preserves_load|intros v1].
  apply (returns_new_bind ∅); [apply preserves_load|intros v2].
  apply returns_new_alloc.
Qed.

Lemma returns_new_list_deepcopy l : returns_new (list_deepcopy (A := A) l).
Proof.
  apply (returns_new_bind ∅); [apply preserves_load|intros v].
  apply returns_new_alloc.
Qed.

End Store.

(** ** The sorting functions over the store *)

Section ObjectsPreserved.
Context {A : Type}.
Variable cmp : A → A → Z.
Implicit Types (σ : gmap nat (list A)) (W : gset nat).

Ltac preserved :=
  repeat match goal with
  | |- preserves _ (pure _) => apply preserves_pure
  | |- preserves _ (fail _) => apply preserves_fail
  | |- preserves _ diverge => apply preserves_diverge
  | |- preserves _ (lift _) => apply preserves_lift
  | |- preserves _ (load _) => apply preserves_load
  | |- preserves _ (alloc _) => apply preserves_alloc
  | |- preserves _ (list_len _) => apply preserves_list_len
  | |- preserves _ (list_getitem _ _) => apply preserves_list_getitem
  | |- preserves _ (list_getitem_z _ _) => apply preserves_list_getitem_z
  | |- preserves _ (list_slice_from _ _) => apply preserves_list_slice_from
  | |- preserves _ (list_slice_to _ _) => apply preserves_list_slice_to
  | |- preserves _ (list_concat _ _) => apply preserves_list_concat
  | |- preserves _ (list_deepcopy _) => apply preserves_list_deepcopy
  | |- preserves _ (list_append _ _) => apply preserves_list_append; set_solver
  | |- preserves _ (list_setitem_z _ _ _) =>
      apply preserves_list_setitem_z; set_solver
  | |- preserves _ (alloc _ ≫= _) => apply preserves_alloc_bind; intros ?
  | |- preserves _ (_ ≫= _) => apply preserves_bind; [|intros ?]
  | |- preserves _ (if ?b then _ else _) => destruct b
  | |- preserves _ (match ?p with (_, _) => _ end) => destruct p
  | |- preserves _ (match ?p with Some _ => _ | None => _ end) => destruct p
  end.

Lemma merged_body_preserves xs ys new_list c :
  preserves {[new_list]} (Obj.merged_body cmp xs ys new_list c).
Proof. unfold Obj.merged_body. preserved. Qed.

Lemma merged_loop_preserves fuel xs ys new_list c :
  preserves {[new_list]} (Obj.merged_loop cmp fuel xs ys new_list c).
Proof.
  revert c. induction fuel as [|fuel IH]; intros c; simpl; preserved.
  - apply merged_body_preserves.
  - apply IH.
Qed.

(** [_merged] changes no object that exists when it is called. *)
Lemma merged_preserves fuel xs ys : preserves ∅ (Obj._merged cmp fuel xs ys).
Proof.
  unfold Obj._merged. apply preserves_alloc_bind. intros new_list.
  apply preserves_bind; [|intros [c1 c2]; preserved].
  eapply preserves_mono; [|apply merged_loop_preserves]. set_solver.
Qed.

Lemma merged_returns_new fuel xs ys : returns_new (Obj._merged cmp fuel xs ys).
Proof.
  unfold Obj._merged.
  apply (returns_new_bind ∅); [apply preserves_alloc|intros new_list].
  apply (returns_new_bind {[new_list]}); [apply merged_loop_preserves|intros [c1 c2]].
  apply (returns_new_bind ∅); [apply preserves_list_slice_from|intros tail1].
  apply (returns_new_bind ∅); [apply preserves_list_concat|intros sum1].
  apply (returns_new_bind ∅); [apply preserves_list_slice_from|intros tail2].
  apply returns_new_list_concat.
Qed.

Lemma merge_sorted_preserves fuel xs : preserves ∅ (Obj.merge_sorted cmp fuel xs).
Proof.
  revert xs. induction fuel as [|fuel IH]; intros xs; simpl; preserved.
  - apply IH.
  - apply IH.
  - apply merged_preserves.
Qed.

Lemma merge_sorted_returns_new fuel xs : returns_new (Obj.merge_sorted cmp fuel xs).
Proof.
  destruct fuel as [|fuel]; [by intros σ l σ' ?|]. simpl.
  intros σ l σ' (xs2 & σ1 & H1 & H2)%prog_bind_inv.
  destruct (returns_new_list_deepcopy _ _ _ _ H1) as [Hn1 Hi1].
  destruct (preserves_list_deepcopy ∅ _ _ _ _ H1) as [Hd1 _].
  apply prog_bind_inv in H2 as (n & σ2 & H2 & H3).
  destruct (preserves_list_len ∅ _ _ _ _ H2) as [Hd2 _].
  destruct (n <=? 1)%nat.
  { unfold pure in H3. simplify_eq. split; [done|set_solver]. }
  apply prog_bind_inv in H3 as (left & σ3 & H3 & H4).
  destruct (preserves_list_slice_to ∅ _ _ _ _ _ H3) as [Hd3 _].
  apply prog_bind_inv in H4 as (right & σ4 & H4 & H5).
  destruct (preserves_list_slice_from ∅ _ _ _ _ _ H4) as [Hd4 _].
  apply prog_bind_inv in H5 as (lmerge & σ5 & H5 & H6).
  destruct (merge_sorted_preserves _ _ _ _ _ H5) as [Hd5 _].
  apply prog_bind_inv in H6 as (rmerge & σ6 & H6 & H7).
  destruct (merge_sorted_preserves _ _ _ _ _ H6) as [Hd6 _].
  destruct (merged_returns_new _ _ _ _ _ _ H7) as [Hn7 Hi7].
  split; [set_solver|done].
Qed.

Lemma bucket_body_preserves W pivot l g e (items : A) :
  l ∈ W → g ∈ W → e ∈ W → preserves W (Obj.bucket_body cmp pivot l g e items).
Proof. intros. unfold Obj.bucket_body. preserved. Qed.

Lemma quick_sorted_preserves (rnd : nat → nat) fuel xs k :
  preserves ∅ (Obj.quick_sorted cmp rnd fuel xs k).
Proof.
  revert xs k. induction fuel as [|fuel IH]; intros xs k; simpl; preserved.
  - unfold Obj.list_random_choice. preserved.
  - apply preserves_for_items. intros x.
    apply bucket_body_preserves; set_solver.
  - eapply preserves_mono; [|apply IH]. set_solver.
  - eapply preserves_mono; [|apply IH]. set_solver.
Qed.

Lemma quick_sorted_returns_new (rnd : nat → nat) fuel xs k σ r σ' :
  Obj.quick_sorted cmp rnd fuel xs k σ = Done (r, σ') →
  (r.1 ∉ dom σ) ∧ (r.1 ∈ dom σ').
Proof.
  destruct fuel as [|fuel]; [done|]. simpl.
  intros (xs2 & σ1 & H1 & H2)%prog_bind_inv.
  destruct (returns_new_list_deepcopy _ _ _ _ H1) as [Hn1 Hi1].
  destruct (preserves_list_deepcopy ∅ _ _ _ _ H1) as [Hd1 _].
  apply prog_bind_inv in H2 as (n & σ2 & H2 & H3).
  destruct (preserves_list_len ∅ _ _ _ _ H2) as [Hd2 _].
  destruct (n <=? 1)%nat.
  { unfold pure in H3. simplify_eq. split; [done|set_solver]. }
  apply prog_bind_inv in H3 as (l & σ3 & H3 & H4).
  destruct (preserves_alloc ∅ _ _ _ _ H3) as [Hd3 _].
  apply prog_bind_inv in H4 as (g & σ4 & H4 & H5).
  destruct (preserves_alloc ∅ _ _ _ _ H4) as [Hd4 _].
  apply prog_bind_inv in H5 as (e & σ5 & H5 & H6).
  destruct (preserves_alloc ∅ _ _ _ _ H5) as [Hd5 _].
  apply prog_bind_inv in H6 as ([pivot k1] & σ6 & H6 & H7).
  assert (dom σ5 ⊆ dom σ6) as Hd6.
  { unfold Obj.list_random_choice in H6.
    apply prog_bind_inv in H6 as (v & σa & [_ ->]%load_inv & [_ ->]%lift_inv).
    done. }
  apply prog_bind_inv in H7 as (items & σ7 & [_ ->]%load_inv & H8).
  apply prog_bind_inv in H8 as ([] & σ8 & H8 & H9).
  assert (dom σ6 ⊆ dom σ8) as Hd8.
  { eapply (preserves_for_items {[l; g; e]}); [|done].
    intros x. apply bucket_body_preserves; set_solver. }
  apply prog_bind_inv in H9 as ([less k2] & σ9 & H9 & H10).
  destruct (quick_sorted_preserves _ _ _ _ _ _ _ H9) as [Hd9 _].
  apply prog_bind_inv in H10 as ([greater k3] & σ10 & H10 & H11).
  destruct (quick_sorted_preserves _ _ _ _ _ _ _ H10) as [Hd10 _].
  apply prog_bind_inv in H11 as (front & σ11 & H11 & H12).
  destruct (preserves_list_concat ∅ _ _ _ _ _ H11) as [Hd11 _].
  apply prog_bind_inv in H12 as (result & σ12 & H12 & H13).
  destruct (returns_new_list_concat _ _ _ _ _ H12) as [Hn12 Hi12].
  unfold pure in H13. simplify_eq. simpl. split; [set_solver|done].
Qed.

(** [quick_sort] writes to the object it is given and to no other. *)
Lemma swap_items_preserves W array i j :
  array ∈ W → preserves W (Obj.swap_items (A := A) array i j).
Proof. intros. unfold Obj.swap_items. preserved. Qed.

Lemma partition_preserves W array lo hi :
  array ∈ W → preserves W (Obj._partition cmp array lo hi).
Proof.
  intros. unfold Obj._partition. preserved.
  - apply preserves_for_flow. intros j i. unfold Obj.partition_body.
    preserved; by apply swap_items_preserves.
  - destruct u0; preserved.
Qed.

Lemma quicksort_preserves fuel array lo hi :
  preserves {[array]} (Obj._quicksort cmp fuel array lo hi).
Proof.
  revert lo hi. induction fuel as [|fuel IH]; intros lo hi; simpl; preserved.
  - apply partition_preserves. set_solver.
  - apply IH.
  - apply IH.
Qed.

Lemma quick_sort_preserves fuel xs :
  preserves {[xs]} (Obj.quick_sort cmp fuel xs).
Proof. unfold Obj.quick_sort. preserved. apply quicksort_preserves. Qed.

Lemma quicksort_returns_array fuel array lo hi σ l σ' :
  Obj._quicksort cmp fuel array lo hi σ = Done (l, σ') → l = array.
Proof.
  destruct fuel as [|fuel]; [done|]. simpl. destruct (lo <? hi).
  - intros (p & σ1 & _ & H)%prog_bind_inv. destruct p as [p|]; [|done].
    apply prog_bind_inv in H as (? & σ2 & _ & H).
    apply prog_bind_inv in H as (? & σ3 & _ & H).
    unfold pure in H. by simplify_eq.
  - unfold pure. intros ?. by simplify_eq.
Qed.

Lemma quick_sort_returns_argument fuel xs σ l σ' :
  Obj.quick_sort cmp fuel xs σ = Done (l, σ') → l = xs.
Proof.
  unfold Obj.quick_sort. intros (n & σ1 & _ & H)%prog_bind_inv.
  by eapply quicksort_returns_array.
Qed.

End ObjectsPreserved.

(** ** In-place quicksort over the store is the quicksort on the contents *)

Section QuickSortInPlace.
Context {A : Type}.
Variable cmp : A → A → Z.
Implicit Types (σ : gmap nat (list A)) (v : list A).

Lemma prog_bind_eq {T U} (m : prog A T) (k : T → prog A U) σ :
  (m ≫= k) σ =
    match m σ with
    | Done (u, σ') => k u σ'
    | Raise e => Raise e
    | Timeout => Timeout
    end.
Proof. reflexivity. Qed.

Ltac unfold_binds :=
  repeat first [ rewrite prog_bind_eq
               | progress cbn [pure in_place mbind outcome_bind] ].

Tactic Notation "at_step" constr(lem) constr(o) "as" simple_intropattern(x) :=
  unfold_binds; rewrite lem; destruct o as [x| |];
  cbn [in_place mbind outcome_bind]; [unfold_binds|done..].

Lemma list_len_at l v σ :
  list_len l (<[l := v]> σ) = Done (length v, <[l := v]> σ).
Proof. unfold list_len, load. by rewrite prog_bind_eq, lookup_insert_eq. Qed.

Lemma list_getitem_z_at l v σ i :
  list_getitem_z l i (<[l := v]> σ) =
    in_place l σ (x ← getitem_z v i; Done (v, x)).
Proof.
  unfold list_getitem_z, load. rewrite prog_bind_eq, lookup_insert_eq.
  unfold lift. by destruct (getitem_z v i).
Qed.

Lemma list_setitem_z_at l v σ i x :
  list_setitem_z l i x (<[l := v]> σ) =
    in_place l σ (v' ← setitem_z v i x; Done (v', ())).
Proof.
  unfold list_setitem_z, load. rewrite prog_bind_eq, lookup_insert_eq.
  rewrite prog_bind_eq. unfold lift.
  destruct (setitem_z v i x); cbn [in_place mbind outcome_bind]; [|done..].
  unfold update. by rewrite insert_insert_eq.
Qed.

Lemma swap_items_at l v σ i j :
  Obj.swap_items l i j (<[l := v]> σ) =
    in_place l σ (v' ← swap_items v i j; Done (v', ())).
Proof.
  unfold Obj.swap_items, swap_items.
  at_step list_getitem_z_at (getitem_z v i) as temp.
  at_step list_getitem_z_at (getitem_z v j) as aj.
  at_step list_setitem_z_at (setitem_z v i aj) as v1.
  rewrite list_setitem_z_at. by destruct (setitem_z v1 j temp).
Qed.

Lemma partition_body_at l v σ hi pivot j i :
  Obj.partition_body cmp l hi pivot j i (<[l := v]> σ) =
    in_place l σ (r ← partition_body cmp hi pivot j (v, i); Done (split_flow r)).
Proof.
  unfold Obj.partition_body, partition_body.
  at_step list_getitem_z_at (getitem_z v j) as aj.
  destruct (cmp aj pivot =? -1), (cmp aj pivot =? 0).
  - at_step swap_items_at (swap_items v (i + 1) j) as v1.
    at_step swap_items_at (swap_items v1 (i + 1 + 1) j) as v2.
    at_step swap_items_at (swap_items v2 (i + 1 + 1 + 1) hi) as v3. done.
  - at_step swap_items_at (swap_items v (i + 1) j) as v1.
    at_step swap_items_at (swap_items v1 (i + 1 + 1) hi) as v2. done.
  - at_step swap_items_at (swap_items v (i + 1) j) as v1.
    at_step swap_items_at (swap_items v1 (i + 1 + 1) hi) as v2. done.
  - at_step swap_items_at (swap_items v (i + 1) hi) as v1. done.
Qed.

Lemma partition_loop_at l v σ hi pivot js i :
  for_flow (Obj.partition_body cmp l hi pivot) js i (<[l := v]> σ) =
    in_place l σ (r ← for_each (partition_body cmp hi pivot) js (v, i);
                  Done (split_flow r)).
Proof.
  revert v i. induction js as [|j js IH]; intros v i; cbn [for_flow for_each].
  { done. }
  rewrite prog_bind_eq, partition_body_at.
  destruct (partition_body cmp hi pivot j (v, i)) as [[[v' i']|[v' p]]| |];
    cbn [in_place mbind outcome_bind split_flow]; [|done..].
  apply IH.
Qed.

Lemma partition_at l v σ lo hi :
  Obj._partition cmp l lo hi (<[l := v]> σ) = in_place l σ (_partition cmp v lo hi).
Proof.
  unfold Obj._partition, _partition.
  at_step list_getitem_z_at (getitem_z v hi) as pivot.
  rewrite partition_loop_at.
  by destruct (for_each (partition_body cmp hi pivot) (seqZ lo (hi - lo)) (v, lo - 1))
    as [[[v' i']|[v' p]]| |].
Qed.

Lemma quicksort_at fuel l v σ lo hi :
  Obj._quicksort cmp fuel l lo hi (<[l := v]> σ) =
    in_place l σ (v' ← _quicksort cmp fuel v lo hi; Done (v', l)).
Proof.
  revert v lo hi. induction fuel as [|fuel IH]; intros v lo hi; [done|].
  cbn [Obj._quicksort _quicksort]. destruct (lo <? hi); [|done].
  rewrite prog_bind_eq, partition_at.
  destruct (_partition cmp v lo hi) as [[v1 [p|]]| |];
    cbn [in_place mbind outcome_bind]; [|done..].
  rewrite prog_bind_eq, IH.
  destruct (_quicksort cmp fuel v1 lo (p - 1)) as [v2| |];
    cbn [in_place mbind outcome_bind]; [|done..].
  rewrite prog_bind_eq, IH.
  by destruct (_quicksort cmp fuel v2 (p + 1) hi) as [v3| |].
Qed.

(** Run on a store in which [xs] holds [v], [quick_sort] ends as the
    value-level [quick_sort] on [v] does, returns [xs] itself and leaves the
    sorted contents in that very object. *)
Lemma quick_sort_in_place fuel xs v σ :
  σ !! xs = Some v →
  Obj.quick_sort cmp fuel xs σ =
    in_place xs σ (v' ← quick_sort cmp fuel v; Done (v', xs)).
Proof.
  intros Hxs. rewrite <- (insert_id σ xs v Hxs) at 1.
  unfold Obj.quick_sort, quick_sort.
  rewrite prog_bind_eq, list_len_at. apply quicksort_at.
Qed.

End QuickSortInPlace.

(** ** The copying sorts over the store return what the value-level
       functions return *)

Section CopyingSortsOnStore.
Context {A : Type}.
Variable cmp : A → A → Z.
Implicit Types (σ : gmap nat (list A)) (v xs ys acc : list A).

Ltac unfold_binds :=
  repeat first
    [ rewrite prog_bind_eq
    | progress cbn [pure in_place mbind outcome_bind new_list counter1 counter2] ].

Lemma alloc_run v σ : ∃ l, alloc v σ = Done (l, <[l := v]> σ) ∧ σ !! l = None.
Proof.
  exists (fresh (dom σ)). split; [done|]. apply not_elem_of_dom, is_fresh.
Qed.

Lemma list_len_run l v σ : σ !! l = Some v → list_len l σ = Done (length v, σ).
Proof. intros H. unfold list_len, load. by rewrite prog_bind_eq, H. Qed.

(** The operations that build a new list: the store only grows, and the new
    object holds the expected contents. *)
Lemma alloc_grows v σ :
  ∃ l σ', alloc v σ = Done (l, σ') ∧ σ ⊆ σ' ∧ σ' !! l = Some v.
Proof.
  destruct (alloc_run v σ) as (l & H & Hl). exists l, (<[l := v]> σ).
  split_and!; [done|by apply insert_subseteq|by rewrite lookup_insert_eq].
Qed.

Lemma list_deepcopy_grows l v σ :
  σ !! l = Some v →
  ∃ l' σ', list_deepcopy l σ = Done (l', σ') ∧ σ ⊆ σ' ∧ σ' !! l' = Some v.
Proof.
  intros H. unfold list_deepcopy, load. rewrite prog_bind_eq, H. apply alloc_grows.
Qed.

Lemma list_slice_to_grows l v n σ :
  σ !! l = Some v →
  ∃ l' σ', list_slice_to l n σ = Done (l', σ') ∧ σ ⊆ σ' ∧ σ' !! l' = Some (take n v).
Proof.
  intros H. unfold list_slice_to, load. rewrite prog_bind_eq, H. apply alloc_grows.
Qed.

Lemma list_slice_from_grows l v n σ :
  σ !! l = Some v →
  ∃ l' σ', list_slice_from l n σ = Done (l', σ') ∧ σ ⊆ σ' ∧ σ' !! l' = Some (drop n v).
Proof.
  intros H. unfold list_slice_from, load. rewrite prog_bind_eq, H. apply alloc_grows.
Qed.

Lemma list_concat_grows l1 l2 v1 v2 σ :
  σ !! l1 = Some v1 → σ !! l2 = Some v2 →
  ∃ l' σ', list_concat l1 l2 σ = Done (l', σ') ∧ σ ⊆ σ' ∧ σ' !! l' = Some (v1 ++ v2).
Proof.
  intros H1 H2. unfold list_concat, load. rewrite prog_bind_eq, H1.
  rewrite prog_bind_eq, H2. apply alloc_grows.
Qed.

(** *** The loop of [_merged], writing to [new_list] only *)

Lemma list_getitem_off nl acc l v i σ :
  nl ≠ l → σ !! l = Some v →
  list_getitem l i (<[nl := acc]> σ) = in_place nl σ (x ← getitem v i; Done (acc, x)).
Proof.
  intros Hne H. unfold list_getitem, load.
  rewrite prog_bind_eq, lookup_insert_ne, H by done.
  unfold lift. by destruct (getitem v i).
Qed.

Lemma list_len_off nl acc l v σ :
  nl ≠ l → σ !! l = Some v →
  list_len l (<[nl := acc]> σ) = Done (length v, <[nl := acc]> σ).
Proof. intros Hne H. apply list_len_run. by rewrite lookup_insert_ne. Qed.

Lemma list_append_at nl acc (x : A) σ :
  list_append nl x (<[nl := acc]> σ) = Done ((), <[nl := acc ++ [x]]> σ).
Proof.
  unfold list_append, load, update.
  by rewrite prog_bind_eq, lookup_insert_eq, insert_insert_eq.
Qed.

Section Loop.
Variables (lx ly nl : nat) (xs ys : list A) (σ : gmap nat (list A)).
Hypothesis Hx : σ !! lx = Some xs.
Hypothesis Hy : σ !! ly = Some ys.
Hypothesis Hnx : nl ≠ lx.
Hypothesis Hny : nl ≠ ly.

Lemma merged_body_at acc c1 c2 :
  Obj.merged_body cmp lx ly nl (c1, c2) (<[nl := acc]> σ) =
    in_place nl σ (st ← merged_body cmp xs ys (MergeState acc c1 c2);
                   Done (new_list st, (counter1 st, counter2 st))).
Proof.
  unfold Obj.merged_body, merged_body. cbn [new_list counter1 counter2].
  unfold_binds. rewrite (list_getitem_off nl acc lx xs) by done.
  destruct (getitem xs c1) as [x| |] eqn:Ex; unfold_binds; [|done..].
  rewrite (list_getitem_off nl acc ly ys) by done.
  destruct (getitem ys c2) as [y| |] eqn:Ey; unfold_binds; [|done..].
  destruct (Z.eqb_spec (cmp x y) (-1)), (Z.eqb_spec (cmp x y) 1),
    (Z.eqb_spec (cmp x y) 0); try lia; unfold_binds.
  - rewrite (list_getitem_off nl acc lx xs), Ex by done. unfold_binds.
    rewrite list_append_at. unfold_binds. reflexivity.
  - rewrite (list_getitem_off nl acc ly ys), Ey by done. unfold_binds.
    rewrite list_append_at. unfold_binds. reflexivity.
  - rewrite (list_getitem_off nl acc lx xs), Ex by done. unfold_binds.
    rewrite list_append_at. unfold_binds.
    rewrite (list_getitem_off nl _ ly ys), Ey by done. unfold_binds.
    rewrite list_append_at. unfold_binds. reflexivity.
  - reflexivity.
Qed.

Lemma merged_loop_at fuel acc c1 c2 :
  Obj.merged_loop cmp fuel lx ly nl (c1, c2) (<[nl := acc]> σ) =
    in_place nl σ (st ← merged_loop cmp fuel xs ys (MergeState acc c1 c2);
                   Done (new_list st, (counter1 st, counter2 st))).
Proof.
  revert acc c1 c2. induction fuel as [|fuel IH]; intros acc c1 c2;
    cbn [Obj.merged_loop merged_loop]; unfold_binds;
    rewrite (list_len_off nl acc lx xs) by done; unfold_binds;
    rewrite (list_len_off nl acc ly ys) by done; unfold_binds;
    unfold merged_guard; cbn [fst snd counter1 counter2];
    destruct ((c1 <? length xs)%nat && (c2 <? length ys)%nat); try done.
  unfold_binds. rewrite merged_body_at.
  destruct (merged_body cmp xs ys (MergeState acc c1 c2)) as [[acc' c1' c2']| |];
    unfold_binds; [|done..].
  apply IH.
Qed.

End Loop.

Lemma merged_on_store fuel lx ly xs ys out σ :
  σ !! lx = Some xs → σ !! ly = Some ys →
  _merged cmp fuel xs ys = Done out →
  ∃ l σ', Obj._merged cmp fuel lx ly σ = Done (l, σ') ∧ σ ⊆ σ' ∧ σ' !! l = Some out.
Proof.
  intros Hx Hy. unfold _merged, Obj._merged.
  intros ([acc c1 c2] & Hloop & Hout)%bind_Done_inv. simplify_eq/=.
  destruct (alloc_run [] σ) as (nl & Hnl & Hfresh).
  rewrite (prog_bind_Done _ _ _ _ _ Hnl).
  assert (nl ≠ lx) by (intros ->; congruence).
  assert (nl ≠ ly) by (intros ->; congruence).
  rewrite prog_bind_eq, (merged_loop_at lx ly nl xs ys σ), Hloop by done.
  cbn [in_place mbind outcome_bind new_list counter1 counter2].
  set (σ1 := <[nl := acc]> σ).
  assert (σ ⊆ σ1) as S1 by by apply insert_subseteq.
  assert (σ1 !! nl = Some acc) as L1 by apply lookup_insert_eq.
  destruct (list_slice_from_grows lx xs c1 σ1) as (t1 & σ2 & R2 & S2 & L2).
  { by eapply lookup_weaken. }
  rewrite (prog_bind_Done _ _ _ _ _ R2).
  destruct (list_concat_grows nl t1 acc (drop c1 xs) σ2) as (s1 & σ3 & R3 & S3 & L3).
  { by eapply lookup_weaken. } { done. }
  rewrite (prog_bind_Done _ _ _ _ _ R3).
  destruct (list_slice_from_grows ly ys c2 σ3) as (t2 & σ4 & R4 & S4 & L4).
  { eapply lookup_weaken; [exact Hy|]. by do 3 (etrans; [|done]). }
  rewrite (prog_bind_Done _ _ _ _ _ R4).
  destruct (list_concat_grows s1 t2 (acc ++ drop c1 xs) (drop c2 ys) σ4)
    as (l & σ5 & R5 & S5 & L5).
  { by eapply lookup_weaken. } { done. }
  exists l, σ5. split_and!; [done| |done].
  by do 5 (etrans; [|done]).
Qed.

Lemma merge_sorted_on_store fuel lx xs out σ :
  σ !! lx = Some xs → merge_sorted cmp fuel xs = Done out →
  ∃ l σ', Obj.merge_sorted cmp fuel lx σ = Done (l, σ') ∧ σ ⊆ σ' ∧
          σ' !! l = Some out.
Proof.
  revert lx xs out σ. induction fuel as [|fuel IH]; intros lx xs out σ Hx; [done|].
  cbn [merge_sorted Obj.merge_sorted]. unfold deepcopy, midpoint.
  destruct (list_deepcopy_grows lx xs σ Hx) as (xs2 & σ1 & R1 & S1 & L1).
  rewrite (prog_bind_Done _ _ _ _ _ R1).
  rewrite (prog_bind_Done _ _ _ _ _ (list_len_run _ _ _ L1)).
  destruct (length xs <=? 1)%nat.
  { intros ?. simplify_eq. by exists xs2, σ1. }
  intros (lout & Hl & (rout & Hr & Hm)%bind_Done_inv)%bind_Done_inv.
  destruct (list_slice_to_grows xs2 xs (length xs `div` 2) σ1 L1)
    as (left & σ2 & R2 & S2 & L2).
  rewrite (prog_bind_Done _ _ _ _ _ R2).
  destruct (list_slice_from_grows xs2 xs (length xs `div` 2) σ2)
    as (right & σ3 & R3 & S3 & L3).
  { by eapply lookup_weaken. }
  rewrite (prog_bind_Done _ _ _ _ _ R3).
  destruct (IH left _ _ σ3 (lookup_weaken _ _ _ _ L2 S3) Hl)
    as (lmerge & σ4 & R4 & S4 & L4).
  rewrite (prog_bind_Done _ _ _ _ _ R4).
  destruct (IH right _ _ σ4 (lookup_weaken _ _ _ _ L3 S4) Hr)
    as (rmerge & σ5 & R5 & S5 & L5).
  rewrite (prog_bind_Done _ _ _ _ _ R5).
  destruct (merged_on_store fuel lmerge rmerge _ _ _ σ5
              (lookup_weaken _ _ _ _ L4 S5) L5 Hm) as (l & σ6 & R6 & S6 & L6).
  exists l, σ6. split_and!; [done| |done].
  by do 6 (etrans; [|done]).
Qed.

(** *** The bucket loop of [quick_sorted], writing to its three buckets *)

Section Buckets.
Variables (l g e : nat).
Hypothesis Hlg : l ≠ g.
Hypothesis Hle : l ≠ e.
Hypothesis Hge : g ≠ e.

Lemma append_less L G E (x : A) σ :
  list_append l x (<[e := E]> (<[g := G]> (<[l := L]> σ))) =
    Done ((), <[e := E]> (<[g := G]> (<[l := L ++ [x]]> σ))).
Proof.
  unfold list_append, load, update.
  rewrite prog_bind_eq, !lookup_insert_ne, lookup_insert_eq by done.
  rewrite (insert_insert_ne _ l e), (insert_insert_ne _ l g) by done.
  by rewrite insert_insert_eq.
Qed.

Lemma append_greater L G E (x : A) σ :
  list_append g x (<[e := E]> (<[g := G]> (<[l := L]> σ))) =
    Done ((), <[e := E]> (<[g := G ++ [x]]> (<[l := L]> σ))).
Proof.
  unfold list_append, load, update.
  rewrite prog_bind_eq, lookup_insert_ne, lookup_insert_eq by done.
  rewrite (insert_insert_ne _ g e) by done.
  by rewrite insert_insert_eq.
Qed.

Lemma append_equal L G E (x : A) σ :
  list_append e x (<[e := E]> (<[g := G]> (<[l := L]> σ))) =
    Done ((), <[e := E ++ [x]]> (<[g := G]> (<[l := L]> σ))).
Proof.
  unfold list_append, load, update.
  by rewrite prog_bind_eq, lookup_insert_eq, insert_insert_eq.
Qed.

Lemma bucket_body_at pivot L G E (x : A) σ :
  Obj.bucket_body cmp pivot l g e x (<[e := E]> (<[g := G]> (<[l := L]> σ))) =
    let b := bucket_body cmp pivot (Buckets L G E) x in
    Done ((), <[e := equal_to_pivot b]>
                (<[g := greater_than_pivot b]> (<[l := less_than_pivot b]> σ))).
Proof.
  unfold Obj.bucket_body, bucket_body.
  destruct (cmp x pivot =? -1), (cmp x pivot =? 1), (cmp x pivot =? 0);
    cbn [less_than_pivot greater_than_pivot equal_to_pivot];
    repeat first [ rewrite prog_bind_eq | rewrite append_less
                 | rewrite append_greater | rewrite append_equal
                 | progress cbn [pure] ];
    reflexivity.
Qed.

Lemma bucket_loop_at pivot items L G E σ :
  for_items (Obj.bucket_body cmp pivot l g e) items
      (<[e := E]> (<[g := G]> (<[l := L]> σ))) =
    let b := foldl (bucket_body cmp pivot) (Buckets L G E) items in
    Done ((), <[e := equal_to_pivot b]>
                (<[g := greater_than_pivot b]> (<[l := less_than_pivot b]> σ))).
Proof.
  revert L G E. induction items as [|x items IH]; intros L G E; [done|].
  cbn [for_items foldl]. rewrite prog_bind_eq, bucket_body_at.
  destruct (bucket_body cmp pivot (Buckets L G E) x) as [L' G' E'].
  apply IH.
Qed.

End Buckets.

Lemma quick_sorted_on_store (rnd : nat → nat) fuel lx xs k out k' σ :
  σ !! lx = Some xs → quick_sorted cmp rnd fuel xs k = Done (out, k') →
  ∃ l σ', Obj.quick_sorted cmp rnd fuel lx k σ = Done ((l, k'), σ') ∧ σ ⊆ σ' ∧
          σ' !! l = Some out.
Proof.
  revert lx xs k out k' σ.
  induction fuel as [|fuel IH]; intros lx xs k out k' σ Hx; [done|].
  cbn [quick_sorted Obj.quick_sorted]. unfold deepcopy.
  destruct (list_deepcopy_grows lx xs σ Hx) as (xs2 & σ1 & R1 & S1 & L1).
  rewrite (prog_bind_Done _ _ _ _ _ R1).
  rewrite (prog_bind_Done _ _ _ _ _ (list_len_run _ _ _ L1)).
  destruct (length xs <=? 1)%nat.
  { intros ?. simplify_eq. by exists xs2, σ1. }
  intros ([pivot k1] & Hpivot & H)%bind_Done_inv. cbn beta iota zeta in H.
  apply bind_Done_inv in H as ([less k2] & Hless & H). cbn beta iota zeta in H.
  apply bind_Done_inv in H as ([greater k3] & Hgreater & H).
  cbn beta iota zeta in H. simplify_eq.
  destruct (alloc_run [] σ1) as (l & Rl & Fl).
  rewrite (prog_bind_Done _ _ _ _ _ Rl).
  destruct (alloc_run [] (<[l := []]> σ1)) as (g & Rg & Fg).
  rewrite (prog_bind_Done _ _ _ _ _ Rg).
  destruct (alloc_run [] (<[g := []]> (<[l := []]> σ1))) as (e & Re & Fe).
  rewrite (prog_bind_Done _ _ _ _ _ Re).
  assert (l ≠ g) as Hlg by (intros ->; by rewrite lookup_insert_eq in Fg).
  assert (g ≠ e) as Hge by (intros ->; by rewrite lookup_insert_eq in Fe).
  assert (l ≠ e) as Hle.
  { intros ->. by rewrite lookup_insert_ne, lookup_insert_eq in Fe. }
  rewrite lookup_insert_ne in Fg by done.
  rewrite !lookup_insert_ne in Fe by done.
  assert (<[e := []]> (<[g := []]> (<[l := []]> σ1)) !! xs2 = Some xs) as L1'.
  { rewrite !lookup_insert_ne; [done|intros ->; congruence..]. }
  assert (load xs2 (<[e := []]> (<[g := []]> (<[l := []]> σ1))) =
          Done (xs, <[e := []]> (<[g := []]> (<[l := []]> σ1)))) as Rload.
  { unfold load. by rewrite L1'. }
  assert (Obj.list_random_choice rnd xs2 k (<[e := []]> (<[g := []]> (<[l := []]> σ1)))
          = Done ((pivot, k1), <[e := []]> (<[g := []]> (<[l := []]> σ1)))) as Rchoice.
  { unfold Obj.list_random_choice. rewrite (prog_bind_Done _ _ _ _ _ Rload).
    unfold lift. by rewrite Hpivot. }
  rewrite (prog_bind_Done _ _ _ _ _ Rchoice).
  rewrite (prog_bind_Done _ _ _ _ _ Rload).
  rewrite prog_bind_eq, (bucket_loop_at l g e) by done.
  set (b := foldl (bucket_body cmp pivot) (Buckets [] [] []) xs) in *.
  cbn zeta.
  set (σ2 := <[e := equal_to_pivot b]>
               (<[g := greater_than_pivot b]> (<[l := less_than_pivot b]> σ1))).
  assert (σ1 ⊆ σ2) as S2.
  { unfold σ2.
    etrans; [|apply insert_subseteq; by rewrite !lookup_insert_ne by done].
    etrans; [|apply insert_subseteq; by rewrite lookup_insert_ne by done].
    by apply insert_subseteq. }
  assert (σ2 !! l = Some (less_than_pivot b)) as Ll.
  { unfold σ2. rewrite !lookup_insert_ne by done. apply lookup_insert_eq. }
  assert (σ2 !! g = Some (greater_than_pivot b)) as Lg.
  { unfold σ2. rewrite lookup_insert_ne by done. apply lookup_insert_eq. }
  assert (σ2 !! e = Some (equal_to_pivot b)) as Le.
  { unfold σ2. by rewrite lookup_insert_eq. }
  clearbody σ2.
  destruct (IH l _ _ _ _ σ2 Ll Hless) as (less' & σ3 & R3 & S3 & L3).
  rewrite (prog_bind_Done _ _ _ _ _ R3).
  destruct (IH g _ _ _ _ σ3 (lookup_weaken _ _ _ _ Lg S3) Hgreater)
    as (greater' & σ4 & R4 & S4 & L4).
  rewrite (prog_bind_Done _ _ _ _ _ R4).
  destruct (list_concat_grows less' e less (equal_to_pivot b) σ4)
    as (front & σ5 & R5 & S5 & L5).
  { by eapply lookup_weaken. }
  { eapply lookup_weaken; [exact Le|]. by etrans. }
  rewrite (prog_bind_Done _ _ _ _ _ R5).
  destruct (list_concat_grows front greater' _ greater σ5 L5)
    as (result & σ6 & R6 & S6 & L6).
  { by eapply lookup_weaken. }
  rewrite (prog_bind_Done _ _ _ _ _ R6).
  exists result, σ6. split_and!; [done| |done].
  by do 5 (etrans; [|done]).
Qed.

End CopyingSortsOnStore.

(** ** The scenarios of the specification *)

Example merged_scenario :
  _merged cmp_standard 6 [1; 3; 5] [2; 4; 6] = Done [1; 2; 3; 4; 5; 6].
Proof. reflexivity. Qed.

Example merge_sorted_scenario :
  merge_sorted cmp_standard 6 [5; 3; 1; 4; 2] = Done [1; 2; 3; 4; 5].
Proof. reflexivity. Qed.

Example merge_sorted_last_digit_scenario :
  merge_sorted cmp_last_digit 4 [322; 125; 523] = Done [322; 523; 125].
Proof. reflexivity. Qed.

Example quick_sorted_scenario :
  quick_sorted cmp_standard (λ _, 0%nat) 6 [5; 3; 1; 4; 2] 0 =
    Done ([1; 2; 3; 4; 5], 3%nat).
Proof. reflexivity. Qed.

(** ** The claims *)

(** C1.  The specification promises that [quick_sort] leaves the whole list
    sorted, and that [quick_sort([5,3,1,4,2], cmp_standard)] yields
    [[1,2,3,4,5]].  The code does not: [_partition] returns from inside its
    loop after the first comparison, and the list comes back as
    [[2,3,5,1,4]], in which 5 stands directly before 1. *)
Theorem quick_sort_scenario_unsorted :
  ∀ fuel, quick_sort cmp_standard (6 + fuel) [5; 3; 1; 4; 2] = Done [2; 3; 5; 1; 4] ∧
          ¬ sorted_by cmp_standard [2; 3; 5; 1; 4].
Proof.
  intros fuel. split.
  - apply (quicksort_fuel_mono cmp_standard 6); [lia|reflexivity].
  - intros H. rewrite sorted_by_adjacent in H. by apply (H 2%nat 5 1).
Qed.

(** C2, counterexample.  A comparator may answer within [{-1,0,1}] and still
    give [quick_sorted] no output: with the constant answer [-1] every
    element, the pivot included, goes to the less-than bucket, which is
    sorted again, without end. *)
Lemma quick_sorted_without_output :
  in_range (λ _ _ : Z, -1) ∧
  ¬ ∃ rnd fuel k r, quick_sorted (λ _ _ : Z, -1) rnd fuel [1; 2] k = Done r.
Proof.
  split; [intros ??; by left|].
  intros (rnd & fuel & k & r & H).
  by rewrite quick_sorted_all_less in H.
Qed.

(** C2, amended.  For every comparator with answers in [{-1,0,1}] and every
    list, [merge_sorted] and [quick_sort] return a rearrangement of the input
    (same multiset); [quick_sorted] does so as soon as the comparator answers
    [0] for each element against itself, and in any case whenever it returns
    at all. *)
Theorem sorts_preserve_multiset {A} (cmp : A → A → Z) (xs : list A) fuel :
  in_range cmp → (length xs < fuel)%nat →
  (∃ out, merge_sorted cmp fuel xs = Done out ∧ out ≡ₚ xs) ∧
  (∃ out, quick_sort cmp fuel xs = Done out ∧ out ≡ₚ xs) ∧
  ((∀ x, x ∈ xs → cmp x x = 0) →
   ∀ rnd k, ∃ out k', quick_sorted cmp rnd fuel xs k = Done (out, k') ∧ out ≡ₚ xs) ∧
  (∀ rnd fuel' k out k',
     quick_sorted cmp rnd fuel' xs k = Done (out, k') → out ≡ₚ xs).
Proof.
  intros Hr Hfuel. split_and!.
  - by apply merge_sorted_Permutation.
  - by apply quick_sort_Permutation.
  - intros Hrefl rnd k.
    destruct (quick_sorted_rec cmp Hr (λ _ _, True)) with rnd fuel xs k
      as (out & k' & ? & ? & _); eauto.
  - intros rnd fuel' k out k'. by apply quick_sorted_Done_Permutation.
Qed.

Lemma sorts_preserve_multiset_witness :
  (∃ out, merge_sorted cmp_standard 6 [5; 3; 1; 4; 2] = Done out ∧
          out ≡ₚ [5; 3; 1; 4; 2]) ∧
  (∃ out, quick_sort cmp_standard 6 [5; 3; 1; 4; 2] = Done out ∧
          out ≡ₚ [5; 3; 1; 4; 2]).
Proof.
  destruct (sorts_preserve_multiset cmp_standard [5; 3; 1; 4; 2] 6) as (H1 & H2 & _).
  - apply cmp_standard_three_way.
  - simpl. lia.
  - split; [exact H1|exact H2].
Defined.

(** C3.  Under the three-way contract the lists returned by [merge_sorted]
    and by [quick_sorted] (for every generator) have no adjacent pair
    [(x, y)] with [cmp x y = 1]; and [merge_sorted([5,3,1,4,2])] is
    [[1,2,3,4,5]]. *)
Theorem copying_sorts_are_sorted {A} (cmp : A → A → Z) (xs : list A) fuel :
  three_way cmp → (length xs < fuel)%nat →
  (∃ out, merge_sorted cmp fuel xs = Done out ∧
     ∀ i x y, out !! i = Some x → out !! S i = Some y → cmp x y ≠ 1) ∧
  (∀ rnd k, ∃ out k', quick_sorted cmp rnd fuel xs k = Done (out, k') ∧
     ∀ i x y, out !! i = Some x → out !! S i = Some y → cmp x y ≠ 1) ∧
  merge_sorted cmp_standard 6 [5; 3; 1; 4; 2] = Done [1; 2; 3; 4; 5].
Proof.
  intros Htw Hfuel. split_and!; [| |reflexivity].
  - destruct (merge_sorted_sorted cmp Htw fuel xs Hfuel) as (out & ? & _ & Hs).
    exists out. split; [done|]. by apply sorted_by_adjacent.
  - intros rnd k.
    destruct (quick_sorted_stable cmp Htw rnd fuel xs k Hfuel)
      as (out & k' & ? & _ & Hs & _).
    exists out, k'. split; [done|]. by apply sorted_by_adjacent.
Qed.

Lemma copying_sorts_are_sorted_witness :
  ∃ out, merge_sorted cmp_last_digit 4 [322; 125; 523] = Done out ∧
    ∀ i x y, out !! i = Some x → out !! S i = Some y → cmp_last_digit x y ≠ 1.
Proof.
  destruct (copying_sorts_are_sorted cmp_last_digit [322; 125; 523] 4) as (H & _).
  - apply cmp_last_digit_three_way.
  - simpl. lia.
  - exact H.
Defined.

(** C4.  With answers in [{-1,0,1}], one pass of the loop of [_merged] emits
    the left element and advances the left cursor on [-1], emits the right
    element and advances the right cursor on [1], emits the left and then the
    right element and advances both on [0]; the run ends with the remainder
    of the unexhausted input appended, the output is the merge described in
    the specification and as long as both inputs together; and
    [_merged([1,3,5],[2,4,6])] is [[1,2,3,4,5,6]].  Sortedness of the inputs
    is not needed for any of this. *)
Theorem merged_behaviour {A} (cmp : A → A → Z) (xs ys : list A) :
  in_range cmp →
  (∀ st x y, xs !! counter1 st = Some x → ys !! counter2 st = Some y →
     (cmp x y = -1 → merged_body cmp xs ys st =
        Done (MergeState (new_list st ++ [x]) (counter1 st + 1) (counter2 st))) ∧
     (cmp x y = 1 → merged_body cmp xs ys st =
        Done (MergeState (new_list st ++ [y]) (counter1 st) (counter2 st + 1))) ∧
     (cmp x y = 0 → merged_body cmp xs ys st =
        Done (MergeState ((new_list st ++ [x]) ++ [y])
                         (counter1 st + 1) (counter2 st + 1)))) ∧
  (∀ fuel, (length xs + length ys ≤ fuel)%nat →
     ∃ st, merged_loop cmp fuel xs ys (MergeState [] 0 0) = Done st ∧
       (drop (counter1 st) xs = [] ∨ drop (counter2 st) ys = []) ∧
       _merged cmp fuel xs ys =
         Done ((new_list st ++ drop (counter1 st) xs) ++ drop (counter2 st) ys) ∧
       _merged cmp fuel xs ys = Done (merge_fun cmp xs ys) ∧
       length (merge_fun cmp xs ys) = (length xs + length ys)%nat) ∧
  _merged cmp_standard 6 [1; 3; 5] [2; 4; 6] = Done [1; 2; 3; 4; 5; 6].
Proof.
  intros Hr. split_and!; [| |reflexivity].
  - intros st x y Hx Hy. split_and!; intros Hc.
    + by apply (merged_body_less cmp xs ys st x y).
    + by apply (merged_body_greater cmp xs ys st x y).
    + by apply (merged_body_equal cmp xs ys st x y).
  - intros fuel Hfuel.
    pose proof (merged_spec cmp xs ys fuel Hr Hfuel) as Hm.
    unfold _merged in *.
    destruct (merged_loop cmp fuel xs ys (MergeState [] 0 0)) as [st| |] eqn:Hl;
      [|done..].
    exists st. split_and!; [done| |done|done|].
    + pose proof (merged_loop_guard cmp _ _ _ _ _ Hl) as Hg.
      apply not_true_iff_false in Hg. rewrite merged_guard_true in Hg.
      destruct (decide (counter1 st < length xs)%nat).
      * right. apply drop_ge. lia.
      * left. apply drop_ge. lia.
    + by rewrite merge_fun_Permutation, length_app.
Qed.

Lemma merged_behaviour_witness :
  ∃ st, merged_loop cmp_standard 6 [1; 3; 5] [2; 4; 6] (MergeState [] 0 0) = Done st ∧
    (drop (counter1 st) [1; 3; 5] = [] ∨ drop (counter2 st) [2; 4; 6] = []) ∧
    _merged cmp_standard 6 [1; 3; 5] [2; 4; 6] =
      Done ((new_list st ++ drop (counter1 st) [1; 3; 5]) ++
            drop (counter2 st) [2; 4; 6]) ∧
    _merged cmp_standard 6 [1; 3; 5] [2; 4; 6] =
      Done (merge_fun cmp_standard [1; 3; 5] [2; 4; 6]) ∧
    length (merge_fun cmp_standard [1; 3; 5] [2; 4; 6]) = 6%nat.
Proof.
  destruct (merged_behaviour cmp_standard [1; 3; 5] [2; 4; 6]) as (_ & H & _).
  - apply cmp_standard_three_way.
  - apply (H 6%nat). simpl. lia.
Defined.

(** C5, counterexample.  [merge_sorted] is not stable: of four records with
    the same key, the second and the third change places. *)
Lemma merge_sorted_not_stable :
  three_way (@cmp_first string) ∧
  merge_sorted cmp_first 5 same_key =
    Done [(1, "a"%string); (1, "c"%string); (1, "b"%string); (1, "d"%string)] ∧
  ¬ stable cmp_first same_key
      [(1, "a"%string); (1, "c"%string); (1, "b"%string); (1, "d"%string)].
Proof.
  split_and!; [apply cmp_first_three_way|reflexivity|].
  intros H. specialize (H (1, "a"%string)). by vm_compute in H.
Qed.

(** C5, amended.  Under the contract, [merge_sorted] keeps the elements of
    an equivalence class in their input order whenever the class has at most
    two members in the input; so [[(1,"a"),(1,"b")]] compared on the first
    component comes back as it is. *)
Theorem merge_sorted_stable_on_pairs {A} (cmp : A → A → Z) (xs : list A) fuel :
  three_way cmp → (length xs < fuel)%nat →
  (∃ out, merge_sorted cmp fuel xs = Done out ∧
     ∀ a, (length (class_of cmp a xs) ≤ 2)%nat →
          class_of cmp a out = class_of cmp a xs) ∧
  merge_sorted cmp_first 3 [(1, "a"%string); (1, "b"%string)] =
    Done [(1, "a"%string); (1, "b"%string)].
Proof.
  intros Htw Hfuel. split; [|reflexivity].
  destruct (merge_sorted_small_classes cmp Htw fuel xs Hfuel)
    as (out & ? & _ & _ & ?).
  by exists out.
Qed.

Lemma merge_sorted_stable_on_pairs_witness :
  ∃ out, merge_sorted cmp_first 4 one_pair = Done out ∧
    ∀ a, (length (class_of cmp_first a one_pair) ≤ 2)%nat →
         class_of cmp_first a out = class_of cmp_first a one_pair.
Proof.
  destruct (merge_sorted_stable_on_pairs cmp_first one_pair 4) as (H & _).
  - apply cmp_first_three_way.
  - simpl. lia.
  - exact H.
Defined.

(** C6, counterexample.  Of three elements the left half gets one, not two:
    the extra element of an odd length does not go to the left half. *)
Lemma left_half_of_three :
  (2 ≤ length [5; 3; 1])%nat ∧
  length (take (midpoint [5; 3; 1]) [5; 3; 1]) = 1%nat ∧
  length (take (midpoint [5; 3; 1]) [5; 3; 1]) ≠ ((length [5; 3; 1] + 1) `div` 2)%nat.
Proof. vm_compute. lia. Qed.

(** C6, amended.  On a list of at least two elements [merge_sorted] splits at
    [len // 2]: the left half is the first [floor(n/2)] elements, the right
    half the remaining [ceil(n/2)] ones (it gets the extra element of an odd
    length); each half is sorted recursively and the results are merged. *)
Theorem merge_sorted_splits_at_floor {A} (cmp : A → A → Z) (xs : list A) fuel :
  (2 ≤ length xs)%nat →
  merge_sorted cmp (S fuel) xs =
    (lmerge ← merge_sorted cmp fuel (take (length xs `div` 2) xs);
     rmerge ← merge_sorted cmp fuel (drop (length xs `div` 2) xs);
     _merged cmp fuel lmerge rmerge) ∧
  take (length xs `div` 2) xs ++ drop (length xs `div` 2) xs = xs ∧
  length (take (length xs `div` 2) xs) = (length xs `div` 2)%nat ∧
  length (drop (length xs `div` 2) xs) = ((length xs + 1) `div` 2)%nat.
Proof.
  intros Hlen. split_and!.
  - by apply merge_sorted_large.
  - apply take_drop.
  - pose proof (midpoint_bounds xs Hlen). unfold midpoint in *.
    rewrite length_take. lia.
  - rewrite length_drop.
    pose proof (Nat.div_mod_eq (length xs) 2).
    pose proof (Nat.mod_upper_bound (length xs) 2 ltac:(lia)).
    apply (Nat.div_unique _ 2 _ (1 - length xs `mod` 2)); lia.
Qed.

Lemma merge_sorted_splits_at_floor_witness :
  length (take (length [5; 3; 1] `div` 2) [5; 3; 1]) = (length [5; 3; 1] `div` 2)%nat ∧
  length (drop (length [5; 3; 1] `div` 2) [5; 3; 1]) =
    ((length [5; 3; 1] + 1) `div` 2)%nat.
Proof.
  destruct (merge_sorted_splits_at_floor cmp_standard [5; 3; 1] 3) as (_ & _ & H1 & H2).
  - simpl. lia.
  - split; [exact H1|exact H2].
Defined.

(** C7, counterexample.  A sorted input does not come back element for
    element from [merge_sorted]: four records with the same key are sorted,
    and the second and third are exchanged.  ([quick_sort] does not even
    return the sorted list [[1,2,3]] in sorted order; that is the defect of
    claim C1.) *)
Lemma sorted_input_changed :
  three_way (@cmp_first string) ∧ sorted_by cmp_first same_key ∧
  (∃ out, merge_sorted cmp_first 5 same_key = Done out ∧ out ≠ same_key) ∧
  quick_sort cmp_standard 4 [1; 2; 3] = Done [1; 3; 2].
Proof.
  split_and!; [apply cmp_first_three_way| | |reflexivity].
  - apply sorted_by_adjacent. intros [|[|[|[|i]]]] x y Hx Hy;
      simpl in *; by simplify_eq.
  - eexists. split; [reflexivity|done].
Qed.

(** C7, amended.  Under the contract, on an input that is already sorted,
    [quick_sorted] returns the input itself, element for element and for
    every generator; [merge_sorted] returns a sorted rearrangement of the
    input, which is the input itself whenever no class has more than two
    members. *)
Theorem sorted_input_returned {A} (cmp : A → A → Z) (xs : list A) fuel :
  three_way cmp → sorted_by cmp xs → (length xs < fuel)%nat →
  (∀ rnd k, ∃ k', quick_sorted cmp rnd fuel xs k = Done (xs, k')) ∧
  (∃ out, merge_sorted cmp fuel xs = Done out ∧ out ≡ₚ xs ∧ sorted_by cmp out ∧
     ((∀ a, (length (class_of cmp a xs) ≤ 2)%nat) → out = xs)).
Proof.
  intros Htw Hs Hfuel. split.
  - intros rnd k.
    destruct (quick_sorted_stable cmp Htw rnd fuel xs k Hfuel)
      as (out & k' & Hq & _ & Hso & Hst).
    exists k'. rewrite Hq. do 2 f_equal.
    by apply (sorted_stable_unique cmp Htw xs).
  - destruct (merge_sorted_small_classes cmp Htw fuel xs Hfuel)
      as (out & Hm & Hp & Hso & Hcl).
    exists out. split_and!; [done..|]. intros Hall.
    apply (sorted_stable_unique cmp Htw xs); [done| |done..].
    intros a. by apply Hcl.
Qed.

Lemma sorted_input_returned_witness :
  (∃ k', quick_sorted cmp_standard (λ n, n) 4 [1; 2; 3] 0 = Done ([1; 2; 3], k')) ∧
  (∃ out, merge_sorted cmp_standard 4 [1; 2; 3] = Done out ∧ out ≡ₚ [1; 2; 3] ∧
     sorted_by cmp_standard out ∧
     ((∀ a, (length (class_of cmp_standard a [1; 2; 3]%Z) ≤ 2)%nat) →
      out = [1; 2; 3])).
Proof.
  destruct (sorted_input_returned cmp_standard [1; 2; 3] 4) as (H1 & H2).
  - apply cmp_standard_three_way.
  - repeat constructor; by vm_compute.
  - simpl. lia.
  - split; [apply (H1 (λ n, n) 0%nat)|exact H2].
Defined.

(** C8.  Called on the list object [xs], [merge_sorted] and [quick_sorted]
    leave the contents of [xs] (and of every other object that exists at the
    call) as they were and return a reference to a new object; the calls do
    return, with the sorted sequence in the new object.  [quick_sort] returns
    [xs] itself, creates no object and leaves its result in [xs]: on
    [[5,3,1,4,2]] the caller's list holds [[2,3,5,1,4]] afterwards. *)
Theorem sorts_and_their_argument {A} (cmp : A → A → Z) (xs : nat) (v : list A)
    (σ : gmap nat (list A)) :
  σ !! xs = Some v →
  (∀ fuel l σ', Obj.merge_sorted cmp fuel xs σ = Done (l, σ') →
     σ' !! xs = Some v ∧ l ≠ xs ∧ σ !! l = None ∧
     ∀ l', l' ∈ dom σ → σ' !! l' = σ !! l') ∧
  (∀ rnd fuel k l k' σ', Obj.quick_sorted cmp rnd fuel xs k σ = Done ((l, k'), σ') →
     σ' !! xs = Some v ∧ l ≠ xs ∧ σ !! l = None ∧
     ∀ l', l' ∈ dom σ → σ' !! l' = σ !! l') ∧
  (in_range cmp → ∀ fuel, (length v < fuel)%nat →
     ∃ l σ' out, Obj.merge_sorted cmp fuel xs σ = Done (l, σ') ∧
       σ' !! l = Some out ∧ merge_sorted cmp fuel v = Done out) ∧
  (in_range cmp → (∀ x, x ∈ v → cmp x x = 0) →
   ∀ rnd fuel k, (length v < fuel)%nat →
     ∃ l k' σ' out, Obj.quick_sorted cmp rnd fuel xs k σ = Done ((l, k'), σ') ∧
       σ' !! l = Some out ∧ quick_sorted cmp rnd fuel v k = Done (out, k')) ∧
  (∀ fuel, (length v < fuel)%nat →
     ∃ out, quick_sort cmp fuel v = Done out ∧
       Obj.quick_sort cmp fuel xs σ = Done (xs, <[xs := out]> σ)) ∧
  Obj.quick_sort cmp_standard 6 0 {[0%nat := [5; 3; 1; 4; 2]]} =
    Done (0%nat, {[0%nat := [2; 3; 5; 1; 4]]}).
Proof.
  intros Hxs.
  assert (xs ∈ dom σ) as Hdom by (apply elem_of_dom; eauto).
  split_and!.
  - intros fuel l σ' Hrun.
    destruct (merge_sorted_preserves cmp fuel xs σ l σ' Hrun) as [_ Hkeep].
    destruct (merge_sorted_returns_new cmp fuel xs σ l σ' Hrun) as [Hnew _].
    split_and!.
    + rewrite Hkeep; [done..|]. set_solver.
    + intros ->. done.
    + by apply not_elem_of_dom.
    + intros l' Hl'. apply Hkeep; [done|]. set_solver.
  - intros rnd fuel k l k' σ' Hrun.
    destruct (quick_sorted_preserves cmp rnd fuel xs k σ _ σ' Hrun) as [_ Hkeep].
    destruct (quick_sorted_returns_new cmp rnd fuel xs k σ _ σ' Hrun) as [Hnew _].
    simpl in Hnew. split_and!.
    + rewrite Hkeep; [done..|]. set_solver.
    + intros ->. done.
    + by apply not_elem_of_dom.
    + intros l' Hl'. apply Hkeep; [done|]. set_solver.
  - intros Hr fuel Hfuel.
    destruct (merge_sorted_Permutation cmp Hr fuel v Hfuel) as (out & Hout & _).
    destruct (merge_sorted_on_store cmp fuel xs v out σ Hxs Hout)
      as (l & σ' & Hrun & _ & Hl).
    by exists l, σ', out.
  - intros Hr Hrefl rnd fuel k Hfuel.
    destruct (quick_sorted_rec cmp Hr (λ _ _, True)) with rnd fuel v k
      as (out & k' & Hout & _ & _); eauto.
    destruct (quick_sorted_on_store cmp rnd fuel xs v k out k' σ Hxs Hout)
      as (l & σ' & Hrun & _ & Hl).
    by exists l, k', σ', out.
  - intros fuel Hfuel.
    destruct (quick_sort_Permutation cmp fuel v Hfuel) as (out & Hout & _).
    exists out. split; [done|].
    by rewrite (quick_sort_in_place cmp fuel xs v σ Hxs), Hout.
  - rewrite (quick_sort_in_place cmp_standard 6 0 [5; 3; 1; 4; 2]);
      [|apply lookup_singleton_eq].
    change (quick_sort cmp_standard 6 [5; 3; 1; 4; 2]) with
      (Done (T := list Z) [2; 3; 5; 1; 4]).
    cbn [in_place mbind outcome_bind]. by rewrite insert_singleton_eq.
Qed.

Lemma sorts_and_their_argument_witness :
  (∃ l σ' out,
     Obj.merge_sorted cmp_standard 6 0 {[0%nat := [5; 3; 1; 4; 2]]} = Done (l, σ') ∧
     σ' !! l = Some out ∧ merge_sorted cmp_standard 6 [5; 3; 1; 4; 2] = Done out) ∧
  (∃ out, quick_sort cmp_standard 6 [5; 3; 1; 4; 2] = Done out ∧
     Obj.quick_sort cmp_standard 6 0 {[0%nat := [5; 3; 1; 4; 2]]} =
       Done (0%nat, <[0%nat := out]> {[0%nat := [5; 3; 1; 4; 2]]})).
Proof.
  destruct (sorts_and_their_argument cmp_standard 0 [5; 3; 1; 4; 2]
              {[0%nat := [5; 3; 1; 4; 2]]}) as (_ & _ & H1 & _ & H2 & _).
  - apply lookup_singleton_eq.
  - split.
    + apply H1; [apply cmp_standard_three_way|simpl; lia].
    + apply H2. simpl. lia.
Defined.

(** C9, counterexample.  On four records with the same key [quick_sorted]
    returns the input as it is, while [merge_sorted] exchanges the second and
    the third record: the two functions do not return the same sequence. *)
Lemma quick_sorted_differs_from_merge_sorted :
  three_way (@cmp_first string) ∧
  ∃ out1 out2,
    quick_sorted cmp_first (λ _, 0%nat) 5 same_key 0 = Done (out1, 1%nat) ∧
    merge_sorted cmp_first 5 same_key = Done out2 ∧ out1 ≠ out2.
Proof.
  split; [apply cmp_first_three_way|].
  eexists _, _. split_and!; [reflexivity|reflexivity|done].
Qed.

(** C9, amended.  Under the contract [quick_sorted] returns one and the same
    sequence for every generator: the sorted rearrangement of the input that
    keeps the input order inside every equivalence class (it is stable and
    independent of the pivots).  [merge_sorted] returns that same sequence
    whenever no class of the input has more than two members. *)
Theorem quick_sorted_pivot_independent {A} (cmp : A → A → Z) (xs : list A) :
  three_way cmp →
  ∃ out,
    (∀ rnd fuel k, (length xs < fuel)%nat →
       ∃ k', quick_sorted cmp rnd fuel xs k = Done (out, k')) ∧
    out ≡ₚ xs ∧ sorted_by cmp out ∧ stable cmp xs out ∧
    ((∀ a, (length (class_of cmp a xs) ≤ 2)%nat) →
     ∀ fuel, (length xs < fuel)%nat → merge_sorted cmp fuel xs = Done out).
Proof.
  intros Htw.
  destruct (quick_sorted_stable cmp Htw (λ _, 0%nat) (S (length xs)) xs 0%nat)
    as (out & k0 & Hq & Hp & Hso & Hst); [lia|].
  exists out. split_and!; [|done..|].
  - intros rnd fuel k Hfuel.
    destruct (quick_sorted_stable cmp Htw rnd fuel xs k Hfuel)
      as (out' & k' & Hq' & _ & Hso' & Hst').
    exists k'. rewrite Hq'. do 2 f_equal.
    by apply (sorted_stable_unique cmp Htw xs).
  - intros Hall fuel Hfuel.
    destruct (merge_sorted_small_classes cmp Htw fuel xs Hfuel)
      as (out' & Hm & _ & Hso' & Hcl).
    rewrite Hm. f_equal.
    apply (sorted_stable_unique cmp Htw xs); [done| |done..].
    intros a. by apply Hcl.
Qed.

Lemma quick_sorted_pivot_independent_witness :
  ∃ out,
    (∃ k', quick_sorted cmp_first (λ n, n) 5 same_key 0 = Done (out, k')) ∧
    (∃ k', quick_sorted cmp_first (λ _, 3%nat) 9 same_key 7 = Done (out, k')) ∧
    out ≡ₚ same_key ∧ sorted_by cmp_first out ∧ stable cmp_first same_key out.
Proof.
  destruct (quick_sorted_pivot_independent cmp_first same_key)
    as (out & Hq & Hp & Hso & Hst & _).
  - apply cmp_first_three_way.
  - exists out. split_and!; [|  |done..].
    + apply (Hq (λ n, n) 5%nat 0%nat). simpl. lia.
    + apply (Hq (λ _, 3%nat) 9%nat 7%nat). simpl. lia.
Defined.

(** C10.  [_merged], and with it [merge_sorted], returns on every pair of
    lists when the comparator only answers [-1], [0] or [1].  The condition
    cannot be dropped: when the loop arrives, with both cursors in range, at
    a pair for which the comparator answers anything else, the pass through
    the body changes no variable, and [_merged] never returns and never
    raises; so with the answer [2] on [[1]] and [[2]]. *)
Theorem merged_terminates_iff_in_range {A} (cmp : A → A → Z) (xs ys : list A) :
  (in_range cmp →
   (∀ fuel, (length xs + length ys ≤ fuel)%nat →
      ∃ out, _merged cmp fuel xs ys = Done out) ∧
   (∀ fuel, (length xs < fuel)%nat →
      ∃ out, merge_sorted cmp fuel xs = Done out)) ∧
  (∀ st x y, merged_reaches cmp xs ys st →
     xs !! counter1 st = Some x → ys !! counter2 st = Some y →
     cmp x y ≠ -1 → cmp x y ≠ 0 → cmp x y ≠ 1 →
     merged_body cmp xs ys st = Done st ∧
     ∀ fuel, _merged cmp fuel xs ys = Timeout) ∧
  (∀ fuel, _merged (λ _ _ : Z, 2) fuel [1] [2] = Timeout).
Proof.
  split_and!.
  - intros Hr. split; intros fuel Hfuel.
    + exists (merge_fun cmp xs ys). by apply merged_spec.
    + destruct (merge_sorted_Permutation cmp Hr fuel xs Hfuel) as (out & ? & _).
      by exists out.
  - intros st x y Hreach Hx Hy H1 H2 H3.
    assert (merged_body cmp xs ys st = Done st) as Hb
      by by apply (merged_body_other cmp xs ys st x y).
    split; [done|]. intros fuel. unfold _merged.
    rewrite (merged_reaches_timeout cmp xs ys st Hreach); [done|].
    apply merged_loop_stuck; [|done].
    apply merged_guard_true.
    split; by eapply lookup_lt_Some.
  - intros fuel. unfold _merged.
    by rewrite (merged_loop_stuck (λ _ _ : Z, 2) [1] [2] (MergeState [] 0 0)).
Qed.

Lemma merged_terminates_iff_in_range_witness :
  (∃ out, _merged cmp_standard 6 [1; 3; 5] [2; 4; 6] = Done out) ∧
  _merged (λ _ _ : Z, 2) 100 [1] [2] = Timeout.
Proof.
  split.
  - destruct (merged_terminates_iff_in_range cmp_standard [1; 3; 5] [2; 4; 6])
      as ([H _] & _ & _).
    + apply cmp_standard_three_way.
    + apply (H 6%nat). simpl. lia.
  - destruct (merged_terminates_iff_in_range (λ _ _ : Z, 2) [1] [2])
      as (_ & H & _).
    apply (H (MergeState [] 0 0) 1 2); [constructor|reflexivity|reflexivity|lia..].
Defined.

(** ** Further properties of the module *)

(** *** The comparators *)

Lemma cmp_reverse_three_way : three_way cmp_reverse.
Proof.
  split.
  - intros a b. unfold cmp_reverse.
    destruct (Z.ltb_spec a b), (Z.ltb_spec b a); lia.
  - intros a b. unfold cmp_reverse.
    destruct (Z.ltb_spec a b), (Z.ltb_spec b a); lia.
  - intros a b c. unfold cmp_le, cmp_reverse.
    destruct (Z.ltb_spec a b), (Z.ltb_spec b a), (Z.ltb_spec b c),
      (Z.ltb_spec c b), (Z.ltb_spec a c), (Z.ltb_spec c a); lia.
Qed.

(** X1.  [cmp_standard] answers as the module's docstring lays down: [-1]
    exactly when [a < b], [1] exactly when [b < a], [0] exactly when the two
    integers are equal. *)
Theorem cmp_standard_reflects_order (a b : Z) :
  (cmp_standard a b = -1 ↔ a < b) ∧
  (cmp_standard a b = 1 ↔ b < a) ∧
  (cmp_standard a b = 0 ↔ a = b).
Proof.
  unfold cmp_standard. destruct (Z.ltb_spec a b), (Z.ltb_spec b a); lia.
Qed.

(** X2.  [cmp_reverse] is [cmp_standard] with the sign changed, which is
    also [cmp_standard] with the arguments exchanged. *)
Theorem cmp_reverse_flips_sign (a b : Z) :
  cmp_reverse a b = - cmp_standard a b ∧ cmp_reverse a b = cmp_standard b a.
Proof.
  unfold cmp_reverse, cmp_standard.
  destruct (Z.ltb_spec a b), (Z.ltb_spec b a); lia.
Qed.

(** X3.  All three comparators of the module obey the three-way contract
    that the sorting functions rely on, [cmp_last_digit] also on negative
    integers. *)
Theorem comparators_obey_contract :
  three_way cmp_standard ∧ three_way cmp_reverse ∧ three_way cmp_last_digit.
Proof.
  split_and!.
  - apply cmp_standard_three_way.
  - apply cmp_reverse_three_way.
  - apply cmp_last_digit_three_way.
Qed.

(** X4.  [cmp_last_digit] sees the residue modulo 10 only: it answers [0]
    exactly when the two integers have the same residue, and adding a
    multiple of 10 to either argument never changes the answer.  Python's
    [%] gives a residue between 0 and 9 for negative integers too, so [-3]
    and [7] compare as equal. *)
Theorem cmp_last_digit_residue (a b k : Z) :
  (cmp_last_digit a b = 0 ↔ a `mod` 10 = b `mod` 10) ∧
  cmp_last_digit (a + 10 * k) b = cmp_last_digit a b ∧
  cmp_last_digit a (b + 10 * k) = cmp_last_digit a b ∧
  0 ≤ a `mod` 10 < 10 ∧
  cmp_last_digit (-3) 7 = 0.
Proof.
  unfold cmp_last_digit. split_and!.
  - apply cmp_standard_reflects_order.
  - by rewrite (Z.mul_comm 10 k), Z_mod_plus_full.
  - by rewrite (Z.mul_comm 10 k), Z_mod_plus_full.
  - pose proof (Z.mod_pos_bound a 10). lia.
  - pose proof (Z.mod_pos_bound a 10). lia.
  - reflexivity.
Qed.

(** *** Comparators whose ties are equal elements *)

Lemma sorted_by_unique {A} (cmp : A → A → Z) (l1 l2 : list A) :
  three_way cmp → (∀ a b, cmp a b = 0 → a = b) →
  sorted_by cmp l1 → sorted_by cmp l2 → l1 ≡ₚ l2 → l1 = l2.
Proof.
  intros Htw Hties H1 H2 Hp.
  rewrite sorted_by_strongly in H1, H2 by done.
  apply (StronglySorted_unique_strong (cmp_le cmp)); [|done..].
  intros x y _ _ Hxy Hyx. by apply Hties, cmp_eq_of_le.
Qed.

Lemma Sorted_weaken {A} (R R' : relation A) (l : list A) :
  (∀ x y, R x y → R' x y) → Sorted R l → Sorted R' l.
Proof.
  intros HR. induction 1 as [|x l Hs IH Hhd]; constructor; [done|].
  destruct Hhd; constructor. by apply HR.
Qed.

(** X5.  When the comparator answers [0] only for equal elements (as
    [cmp_standard] and [cmp_reverse] do), [merge_sorted] and [quick_sorted]
    return one and the same list, whatever the generator draws: the only
    sorted rearrangement of the input. *)
Theorem copying_sorts_agree {A} (cmp : A → A → Z) (xs : list A) fuel :
  three_way cmp → (∀ a b, cmp a b = 0 → a = b) → (length xs < fuel)%nat →
  ∃ out, merge_sorted cmp fuel xs = Done out ∧
    (∀ rnd k, ∃ k', quick_sorted cmp rnd fuel xs k = Done (out, k')) ∧
    out ≡ₚ xs ∧ sorted_by cmp out ∧
    (∀ out', out' ≡ₚ xs → sorted_by cmp out' → out' = out).
Proof.
  intros Htw Hties Hfuel.
  destruct (merge_sorted_sorted cmp Htw fuel xs Hfuel) as (out & Hm & Hp & Hs).
  exists out. split_and!; [done| |done..|].
  - intros rnd k.
    destruct (quick_sorted_stable cmp Htw rnd fuel xs k Hfuel)
      as (out' & k' & Hq & Hp' & Hs' & _).
    exists k'. rewrite Hq. do 2 f_equal.
    apply (sorted_by_unique cmp); [done..|]. by rewrite Hp, Hp'.
  - intros out' Hp' Hs'. apply (sorted_by_unique cmp); [done..|].
    by rewrite Hp, Hp'.
Qed.

Lemma copying_sorts_agree_witness :
  ∃ out, merge_sorted cmp_standard 6 [5; 3; 1; 4; 2] = Done out ∧
    (∃ k', quick_sorted cmp_standard (λ n, n) 6 [5; 3; 1; 4; 2] 0 = Done (out, k')) ∧
    out ≡ₚ [5; 3; 1; 4; 2] ∧ sorted_by cmp_standard out.
Proof.
  destruct (copying_sorts_agree cmp_standard [5; 3; 1; 4; 2] 6)
    as (out & Hm & Hq & Hp & Hs & _).
  - apply cmp_standard_three_way.
  - intros a b H. by apply cmp_standard_reflects_order.
  - simpl. lia.
  - exists out. split_and!; [done| |done..]. apply (Hq (λ n, n) 0%nat).
Defined.

(** X6.  Sorting integers with [cmp_reverse] gives the list that sorting
    them with [cmp_standard] gives, read backwards. *)
Theorem reverse_comparator_reverses (xs : list Z) fuel :
  (length xs < fuel)%nat →
  ∃ out, merge_sorted cmp_standard fuel xs = Done out ∧
    merge_sorted cmp_reverse fuel xs = Done (reverse out) ∧
    (∀ rnd k, ∃ k', quick_sorted cmp_reverse rnd fuel xs k = Done (reverse out, k')).
Proof.
  intros Hfuel.
  destruct (merge_sorted_sorted cmp_standard cmp_standard_three_way fuel xs Hfuel)
    as (out & Hm & Hp & Hs).
  destruct (copying_sorts_agree cmp_reverse xs fuel)
    as (out' & Hm' & Hq' & Hp' & Hs' & Huniq); [apply cmp_reverse_three_way| |done|].
  { intros a b H. destruct (cmp_reverse_flips_sign a b) as [_ E].
    rewrite E in H. symmetry. by apply cmp_standard_reflects_order. }
  assert (reverse out = out') as <-.
  { apply Huniq; [by rewrite reverse_Permutation|].
    apply (Sorted_weaken (flip (cmp_le cmp_standard))); [|by apply Sorted_reverse].
    intros x y. unfold flip, cmp_le.
    by destruct (cmp_reverse_flips_sign x y) as [_ ->]. }
  by exists out.
Qed.

Lemma reverse_comparator_reverses_witness :
  ∃ out, merge_sorted cmp_standard 6 [5; 3; 1; 4; 2] = Done out ∧
    merge_sorted cmp_reverse 6 [5; 3; 1; 4; 2] = Done (reverse out).
Proof.
  destruct (reverse_comparator_reverses [5; 3; 1; 4; 2] 6) as (out & H1 & H2 & _).
  - simpl. lia.
  - by exists out.
Defined.

(** *** Edge cases *)

(** X7.  A list with no element or with one element is returned as it is by
    all three sorting functions, for every comparator (the comparator is not
    consulted) and without a random draw. *)
Theorem short_lists_are_returned {A} (cmp : A → A → Z) (rnd : nat → nat)
    (xs : list A) fuel k :
  (length xs ≤ 1)%nat →
  merge_sorted cmp (S fuel) xs = Done xs ∧
  quick_sorted cmp rnd (S fuel) xs k = Done (xs, k) ∧
  quick_sort cmp (S fuel) xs = Done xs.
Proof.
  intros Hlen. split_and!.
  - by apply merge_sorted_small.
  - by apply quick_sorted_small.
  - unfold quick_sort. cbn [_quicksort].
    by rewrite (proj2 (Z.ltb_ge _ _)) by lia.
Qed.

Lemma short_lists_are_returned_witness :
  merge_sorted cmp_standard 1 [7] = Done [7] ∧
  quick_sorted cmp_standard (λ n, n) 1 [7] 0 = Done ([7], 0%nat) ∧
  quick_sort cmp_standard 1 [7] = Done [7].
Proof. apply (short_lists_are_returned cmp_standard (λ n, n) [7] 0 0). simpl. lia. Defined.

(** X8.  Merging with an empty list returns the other list, for every
    comparator and without any pass through the loop. *)
Theorem merged_with_empty {A} (cmp : A → A → Z) (xs : list A) fuel :
  _merged cmp fuel [] xs = Done xs ∧ _merged cmp fuel xs [] = Done xs.
Proof.
  unfold _merged. split.
  - rewrite merged_loop_exit by done. simpl. by rewrite drop_0.
  - rewrite merged_loop_exit.
    + simpl. by rewrite drop_0, app_nil_r.
    + unfold merged_guard. simpl. apply andb_false_r.
Qed.

(** X9.  Under the contract, [_merged] applied to two sorted lists returns a
    sorted list made of exactly the elements of both. *)
Theorem merged_of_sorted_is_sorted {A} (cmp : A → A → Z) (xs ys : list A) fuel :
  three_way cmp → sorted_by cmp xs → sorted_by cmp ys →
  (length xs + length ys ≤ fuel)%nat →
  ∃ out, _merged cmp fuel xs ys = Done out ∧ out ≡ₚ xs ++ ys ∧ sorted_by cmp out.
Proof.
  intros Htw Hx Hy Hfuel. exists (merge_fun cmp xs ys). split_and!.
  - apply merged_spec; [apply Htw|done].
  - apply merge_fun_Permutation.
  - rewrite sorted_by_strongly in * by done. by apply merge_fun_strongly.
Qed.

Lemma merged_of_sorted_is_sorted_witness :
  ∃ out, _merged cmp_standard 6 [1; 3; 5] [2; 4; 6] = Done out ∧
    out ≡ₚ [1; 3; 5] ++ [2; 4; 6] ∧ sorted_by cmp_standard out.
Proof.
  apply (merged_of_sorted_is_sorted cmp_standard [1; 3; 5] [2; 4; 6] 6).
  - apply cmp_standard_three_way.
  - repeat constructor; by vm_compute.
  - repeat constructor; by vm_compute.
  - simpl. lia.
Defined.

(** *** Comparators that break the contract *)

(** X10.  [quick_sort] needs nothing from the comparator to come to an end:
    for every comparator, also one that answers outside [{-1,0,1}] or
    inconsistently, it returns without an exception, and what it returns is a
    rearrangement of its input. *)
Theorem quick_sort_always_returns {A} (cmp : A → A → Z) (xs : list A) fuel :
  (length xs < fuel)%nat →
  ∃ out, quick_sort cmp fuel xs = Done out ∧ out ≡ₚ xs ∧ length out = length xs.
Proof.
  intros Hfuel.
  destruct (quick_sort_Permutation cmp fuel xs Hfuel) as (out & Hq & Hp).
  exists out. split_and!; [done..|]. by rewrite Hp.
Qed.

Lemma quick_sort_always_returns_witness :
  ∃ out, quick_sort (λ _ _ : Z, 2) 4 [3; 1; 2] = Done out ∧ out ≡ₚ [3; 1; 2] ∧
    length out = length [3; 1; 2].
Proof. apply (quick_sort_always_returns (λ _ _ : Z, 2) [3; 1; 2] 4). simpl. lia. Defined.

Lemma buckets_submseteq {A} (cmp : A → A → Z) pivot (xs : list A) :
  (filter (λ x, cmp x pivot = -1) xs ++ filter (λ x, cmp x pivot = 0) xs) ++
    filter (λ x, cmp x pivot = 1) xs ⊆+ xs.
Proof.
  induction xs as [|x xs IH]; [done|]. rewrite !filter_cons.
  repeat case_decide; try lia; simpl.
  - by apply submseteq_skip.
  - rewrite <- app_assoc. simpl. rewrite <- Permutation_middle.
    apply submseteq_skip. by rewrite app_assoc.
  - rewrite <- Permutation_middle. by apply submseteq_skip.
  - by apply submseteq_cons.
Qed.

(** X11.  [quick_sorted] never returns an element that is not in its input
    and never returns one more often than the input has it, for every
    comparator and every generator: its output is a sub-multiset of the
    input. *)
Theorem quick_sorted_returns_input_elements {A} (cmp : A → A → Z)
    (rnd : nat → nat) fuel (xs : list A) k out k' :
  quick_sorted cmp rnd fuel xs k = Done (out, k') →
  out ⊆+ xs ∧ (length out ≤ length xs)%nat ∧ ∀ x, x ∈ out → x ∈ xs.
Proof.
  intros H. assert (out ⊆+ xs) as Hsub.
  { revert xs k out k' H.
    induction fuel as [|fuel IH]; intros xs k out k' H; [done|].
    destruct (decide (length xs ≤ 1)%nat) as [Hlen|Hlen].
    { rewrite quick_sorted_small in H by done. by simplify_eq. }
    destruct (random_pivot rnd xs k) as (pivot & Hp & _); [lia|].
    rewrite (quick_sorted_large _ _ _ _ _ pivot) in H by (done || lia).
    apply bind_Done_inv in H as ([l k1] & Hl & H). simpl in H.
    apply bind_Done_inv in H as ([g k2] & Hg & H). simpl in H. simplify_eq.
    etrans; [|apply (buckets_submseteq cmp pivot)].
    apply submseteq_app; [apply submseteq_app; [|done]|]; by eapply IH. }
  split_and!; [done|by apply submseteq_length|].
  intros x Hx. by eapply elem_of_submseteq.
Qed.

Lemma quick_sorted_returns_input_elements_witness :
  [1; 2; 3] ⊆+ [3; 1; 2] ∧ (length [1; 2; 3] ≤ length [3; 1; 2])%nat ∧
  ∀ x : Z, x ∈ [1; 2; 3] → x ∈ [3; 1; 2].
Proof.
  apply (quick_sorted_returns_input_elements cmp_standard (λ _, 0%nat) 4
           [3; 1; 2] 0 [1; 2; 3] 2).
  reflexivity.
Defined.

(** X12.  A comparator that never answers [-1], [0] or [1] makes
    [quick_sorted] lose every element of a list of two or more: no element
    reaches a bucket, and the empty list is returned after one draw
    ([_merged] with such a comparator runs forever instead). *)
Theorem quick_sorted_loses_unclassified {A} (cmp : A → A → Z)
    (rnd : nat → nat) fuel (xs : list A) k :
  (∀ a b, cmp a b ≠ -1 ∧ cmp a b ≠ 0 ∧ cmp a b ≠ 1) → (2 ≤ length xs)%nat →
  quick_sorted cmp rnd (S (S fuel)) xs k = Done ([], S k).
Proof.
  intros Hc Hlen.
  destruct (random_pivot rnd xs k) as (pivot & Hp & _); [lia|].
  rewrite (quick_sorted_large _ _ _ _ _ pivot) by done.
  assert (∀ c, c = -1 ∨ c = 0 ∨ c = 1 → filter (λ x, cmp x pivot = c) xs = [])
    as Hnone.
  { intros c Hcase. clear Hlen Hp. induction xs as [|x xs IH]; [done|].
    rewrite filter_cons_False; [done|].
    intros E. destruct (Hc x pivot) as (? & ? & ?). lia. }
  rewrite !Hnone by auto. rewrite quick_sorted_small by (simpl; lia). run.
  by rewrite quick_sorted_small by (simpl; lia).
Qed.

Lemma quick_sorted_loses_unclassified_witness :
  quick_sorted (λ _ _ : Z, 2) (λ n, n) 2 [3; 1; 2] 0 = Done ([], 1%nat).
Proof.
  apply (quick_sorted_loses_unclassified (λ _ _ : Z, 2) (λ n, n) 0 [3; 1; 2] 0).
  - intros _ _. lia.
  - simpl. lia.
Defined.

(** *** More on [quick_sorted] *)

(** X13.  When all elements of the input are equivalent to each other,
    [quick_sorted] puts them all into the equal-to-pivot bucket and returns
    the input as it is after a single draw: the recursion ends at once on
    the two empty buckets. *)
Theorem quick_sorted_all_equivalent {A} (cmp : A → A → Z) (rnd : nat → nat)
    fuel (xs : list A) k :
  (∀ x y, x ∈ xs → y ∈ xs → cmp x y = 0) → (2 ≤ length xs)%nat →
  quick_sorted cmp rnd (S (S fuel)) xs k = Done (xs, S k).
Proof.
  intros Hall Hlen.
  destruct (random_pivot rnd xs k) as (pivot & Hp & Hin); [lia|].
  rewrite (quick_sorted_large _ _ _ _ _ pivot) by done.
  assert (∀ ys, (∀ x, x ∈ ys → cmp x pivot = 0) →
            filter (λ x, cmp x pivot = -1) ys = [] ∧
            filter (λ x, cmp x pivot = 1) ys = [] ∧
            filter (λ x, cmp x pivot = 0) ys = ys) as Hfilters.
  { induction ys as [|y ys IH]; intros Hys; [done|].
    destruct IH as (E1 & E2 & E3); [intros x Hx; apply Hys; by right|].
    assert (cmp y pivot = 0) as Hy by (apply Hys; left).
    rewrite !filter_cons. repeat case_decide; try lia. by rewrite E3. }
  destruct (Hfilters xs) as (-> & -> & ->); [intros x Hx; by apply Hall|].
  rewrite quick_sorted_small by (simpl; lia). run.
  rewrite quick_sorted_small by (simpl; lia). run.
  by rewrite app_nil_r.
Qed.

Lemma quick_sorted_all_equivalent_witness :
  quick_sorted cmp_first (λ n, n) 2 same_key 5 = Done (same_key, 6%nat).
Proof.
  apply (quick_sorted_all_equivalent cmp_first (λ n, n) 0 same_key 5).
  - intros x y Hx Hy. unfold same_key in *.
    repeat (apply elem_of_cons in Hx as [->|Hx]); [..|by apply elem_of_nil in Hx];
      repeat (apply elem_of_cons in Hy as [->|Hy]);
      first [reflexivity|by apply elem_of_nil in Hy].
  - simpl. lia.
Defined.

Lemma buckets_length {A} (cmp : A → A → Z) pivot (xs : list A) :
  pivot ∈ xs → cmp pivot pivot = 0 →
  (length (filter (λ x, cmp x pivot = (-1)%Z) xs) +
   length (filter (λ x, cmp x pivot = 1%Z) xs) < length xs)%nat.
Proof.
  intros Hin Hpp.
  pose proof (submseteq_length _ _ (buckets_submseteq cmp pivot xs)) as Hle.
  rewrite !length_app in Hle.
  assert (0 < length (filter (λ x, cmp x pivot = 0%Z) xs))%nat; [|lia].
  assert (pivot ∈ filter (λ x, cmp x pivot = 0) xs) as Hm
    by by apply list_elem_of_filter.
  destruct (filter (λ x, cmp x pivot = 0) xs); [by apply elem_of_nil in Hm|].
  simpl. lia.
Qed.

(** X14.  [quick_sorted] draws one pivot per call on a list of two or more
    elements and none otherwise.  When the comparator answers [0] for every
    element against itself, a run on [n] elements makes at most [n - 1]
    draws in all, whatever the pivots are. *)
Theorem quick_sorted_draws {A} (cmp : A → A → Z) (rnd : nat → nat) fuel
    (xs : list A) k out k' :
  (∀ x, x ∈ xs → cmp x x = 0) →
  quick_sorted cmp rnd fuel xs k = Done (out, k') →
  (k ≤ k' ≤ k + (length xs - 1))%nat.
Proof.
  revert xs k out k'.
  induction fuel as [|fuel IH]; intros xs k out k' Hrefl H; [done|].
  destruct (decide (length xs ≤ 1)%nat) as [Hlen|Hlen].
  { rewrite quick_sorted_small in H by done. simplify_eq. lia. }
  destruct (random_pivot rnd xs k) as (pivot & Hp & Hin); [lia|].
  rewrite (quick_sorted_large _ _ _ _ _ pivot) in H by (done || lia).
  apply bind_Done_inv in H as ([l k1] & Hl & H). simpl in H.
  apply bind_Done_inv in H as ([g k2] & Hg & H). simpl in H. simplify_eq.
  apply IH in Hl; [|intros x [_ Hx]%list_elem_of_filter; by apply Hrefl].
  apply IH in Hg; [|intros x [_ Hx]%list_elem_of_filter; by apply Hrefl].
  pose proof (buckets_length cmp pivot xs Hin (Hrefl _ Hin)). lia.
Qed.

Lemma quick_sorted_draws_witness :
  (0 ≤ 3 ≤ 0 + (length [5; 3; 1; 4; 2]%Z - 1))%nat.
Proof.
  apply (quick_sorted_draws cmp_standard (λ _, 0%nat) 6 [5; 3; 1; 4; 2]%Z 0
           [1; 2; 3; 4; 5]%Z 3).
  - intros x _. by apply cmp_standard_reflects_order.
  - reflexivity.
Defined.

(** *** More on [quick_sort] *)

Lemma swap_items_exact {A} (array : list A) i j x y :
  0 ≤ i < Z.of_nat (length array) → 0 ≤ j < Z.of_nat (length array) →
  array !! Z.to_nat i = Some x → array !! Z.to_nat j = Some y →
  swap_items array i j = Done (<[Z.to_nat j := x]> (<[Z.to_nat i := y]> array)).
Proof.
  intros Hi Hj Hx Hy. unfold swap_items, getitem_z.
  rewrite !py_index_in by done. run.
  rewrite (getitem_Some _ _ _ Hx), (getitem_Some _ _ _ Hy). run.
  rewrite setitem_z_in by done. run.
  by rewrite setitem_z_in by (by rewrite length_insert).
Qed.

(** X15.  What [_partition] does on a range [lo < hi] inside the list: it
    compares the first element of the range with the pivot [array[hi]] and
    returns at once.  The returned index is [lo + 1] when the answer is [-1]
    or [0] and [lo] otherwise; the pivot stands at the returned index; the
    list is rearranged only, and no position other than [lo], [lo + 1] and
    [hi] is touched, however long the range is. *)
Theorem partition_first_step {A} (cmp : A → A → Z) (array : list A) lo hi x pivot :
  0 ≤ lo → lo < hi → hi < Z.of_nat (length array) →
  array !! Z.to_nat lo = Some x → array !! Z.to_nat hi = Some pivot →
  ∃ array' p, _partition cmp array lo hi = Done (array', Some p) ∧
    p = (if (cmp x pivot =? -1) || (cmp x pivot =? 0) then lo + 1 else lo) ∧
    array' !! Z.to_nat p = Some pivot ∧
    array' ≡ₚ array ∧
    (∀ i, i ≠ Z.to_nat lo → i ≠ Z.to_nat (lo + 1) → i ≠ Z.to_nat hi →
          array' !! i = array !! i).
Proof.
  intros H0 Hlt Hhi Hx Hp.
  destruct (lookup_lt_is_Some_2 array (Z.to_nat (lo + 1))) as [z Hz]; [lia|].
  unfold _partition, getitem_z. rewrite py_index_in by lia. run.
  rewrite (getitem_Some _ _ _ Hp). run.
  rewrite seqZ_cons by lia. cbn [for_each]. unfold partition_body, getitem_z.
  rewrite py_index_in by lia. run. rewrite (getitem_Some _ _ _ Hx). run.
  replace (lo - 1 + 1) with lo by lia.
  destruct (Z.eqb_spec (cmp x pivot) (-1)) as [E1|E1];
    destruct (Z.eqb_spec (cmp x pivot) 0) as [E2|E2]; try lia; run;
    cbn [orb]; try replace (lo - 1 + 1) with lo by lia.
  - rewrite (swap_items_exact array lo lo x x) by (done || lia). run.
    rewrite list_insert_insert_eq, list_insert_id by done.
    rewrite (swap_items_exact array (lo + 1) hi z pivot) by (done || lia). run.
    eexists _, _. split; [reflexivity|]. split; [reflexivity|]. split_and!.
    + destruct (decide (Z.to_nat (lo + 1) = Z.to_nat hi)) as [E|E].
      * rewrite E, list_lookup_insert_eq by (rewrite length_insert; lia).
        rewrite E in Hz. congruence.
      * rewrite list_lookup_insert_ne by done.
        apply list_lookup_insert_eq. lia.
    + by eapply exchange_Permutation.
    + intros i _ ? ?. by rewrite !list_lookup_insert_ne.
  - rewrite (swap_items_exact array lo lo x x) by (done || lia). run.
    rewrite list_insert_insert_eq, list_insert_id by done.
    rewrite (swap_items_exact array (lo + 1) hi z pivot) by (done || lia). run.
    eexists _, _. split; [reflexivity|]. split; [reflexivity|]. split_and!.
    + destruct (decide (Z.to_nat (lo + 1) = Z.to_nat hi)) as [E|E].
      * rewrite E, list_lookup_insert_eq by (rewrite length_insert; lia).
        rewrite E in Hz. congruence.
      * rewrite list_lookup_insert_ne by done.
        apply list_lookup_insert_eq. lia.
    + by eapply exchange_Permutation.
    + intros i _ ? ?. by rewrite !list_lookup_insert_ne.
  - rewrite (swap_items_exact array lo hi x pivot) by (done || lia). run.
    eexists _, _. split; [reflexivity|]. split; [reflexivity|]. split_and!.
    + rewrite list_lookup_insert_ne by lia. apply list_lookup_insert_eq. lia.
    + by eapply exchange_Permutation.
    + intros i ? _ ?. by rewrite !list_lookup_insert_ne.
Qed.

Lemma partition_first_step_witness :
  ∃ array' p, _partition cmp_standard [5; 3; 1; 4; 2] 0 4 = Done (array', Some p) ∧
    p = (if (cmp_standard 5 2 =? -1) || (cmp_standard 5 2 =? 0) then 0 + 1 else 0) ∧
    array' !! Z.to_nat p = Some 2 ∧
    array' ≡ₚ [5; 3; 1; 4; 2] ∧
    (∀ i, i ≠ Z.to_nat 0 → i ≠ Z.to_nat (0 + 1) → i ≠ Z.to_nat 4 →
          array' !! i = [5; 3; 1; 4; 2] !! i).
Proof.
  apply (partition_first_step cmp_standard [5; 3; 1; 4; 2] 0 4 5 2);
    first [reflexivity|simpl; lia].
Defined.

Lemma quicksort_step {A} (cmp : A → A → Z) fuel (array : list A) lo hi :
  lo < hi →
  _quicksort cmp (S fuel) array lo hi =
    '(array, p) ← _partition cmp array lo hi;
    match p with
    | None => Raise TypeError
    | Some p =>
        array ← _quicksort cmp fuel array lo (p - 1);
        array ← _quicksort cmp fuel array (p + 1) hi;
        Done array
    end.
Proof. intros H. cbn [_quicksort]. by rewrite (proj2 (Z.ltb_lt _ _) H). Qed.

Lemma quicksort_stop {A} (cmp : A → A → Z) fuel (array : list A) lo hi :
  hi ≤ lo → _quicksort cmp (S fuel) array lo hi = Done array.
Proof. intros H. cbn [_quicksort]. by rewrite (proj2 (Z.ltb_ge _ _) H). Qed.

(** X16.  [quick_sort] does sort a list of at most two elements: under the
    contract the list comes back rearranged with no adjacent pair in the
    wrong order.  (From three elements on it need not, see C1.) *)
Theorem quick_sort_sorts_pairs {A} (cmp : A → A → Z) (xs : list A) fuel :
  three_way cmp → (length xs ≤ 2)%nat →
  ∃ out, quick_sort cmp (S (S fuel)) xs = Done out ∧ out ≡ₚ xs ∧ sorted_by cmp out.
Proof.
  intros Htw Hlen.
  destruct xs as [|a [|b [|c xs]]]; [| | |simpl in Hlen; lia].
  - exists []. split_and!; [done..|constructor].
  - exists [a]. split_and!; [done..|repeat constructor].
  - destruct (partition_first_step cmp [a; b] 0 1 a b)
      as (array' & p & Hpart & Hp & Hpivot & Hperm & _);
      [simpl; lia..|done|done|].
    unfold quick_sort. change (Z.of_nat (length [a; b]) - 1) with 1.
    rewrite quicksort_step, Hpart by lia. run.
    assert (p = 0 ∨ p = 1) as Hcases by (destruct (_ || _); lia).
    rewrite quicksort_stop by lia. run.
    rewrite quicksort_stop by lia. run. exists array'. split_and!; [done..|].
    pose proof (Permutation_length Hperm) as Hl.
    destruct array' as [|u [|v [|??]]]; simpl in Hl; try lia.
    repeat constructor. unfold cmp_le.
    destruct (Z.eqb_spec (cmp a b) (-1)) as [E1|E1];
      destruct (Z.eqb_spec (cmp a b) 0) as [E2|E2]; simpl in Hp; subst p;
      simpl in Hpivot; simplify_eq.
    + lia.
    + assert ([u; b] ≡ₚ [a; b]) as Hp' by done.
      apply (Permutation_app_inv_r [b] [u] [a]) in Hp'.
      apply Permutation_singleton_r in Hp'. simplify_eq. lia.
    + assert ([u; b] ≡ₚ [a; b]) as Hp' by done.
      apply (Permutation_app_inv_r [b] [u] [a]) in Hp'.
      apply Permutation_singleton_r in Hp'. simplify_eq. lia.
    + assert ([b; v] ≡ₚ [a; b]) as Hp' by done.
      rewrite (Permutation_swap b a []) in Hp'.
      apply Permutation_cons_inv in Hp'.
      apply Permutation_singleton_r in Hp'. simplify_eq.
      destruct (tw_range cmp Htw a b) as [?|[?|Hgt]]; [lia..|].
      apply (tw_flip cmp Htw) in Hgt. lia.
Qed.

Lemma quick_sort_sorts_pairs_witness :
  ∃ out, quick_sort cmp_standard 2 [9; 4] = Done out ∧ out ≡ₚ [9; 4] ∧
    sorted_by cmp_standard out.
Proof.
  apply (quick_sort_sorts_pairs cmp_standard [9; 4] 0).
  - apply cmp_standard_three_way.
  - simpl. lia.
Defined.

(** *** [_merged] and its arguments *)

(** X17.  [_merged] writes to neither of its arguments, nor to any other
    list object that exists when it is called, and returns a reference to a
    new object; with answers in [{-1,0,1}] it does return, and the new object
    holds the merge.  The two arguments may be one and the same object. *)
Theorem merged_leaves_its_arguments {A} (cmp : A → A → Z) (lx ly : nat)
    (xs ys : list A) (σ : gmap nat (list A)) :
  σ !! lx = Some xs → σ !! ly = Some ys →
  (∀ fuel l σ', Obj._merged cmp fuel lx ly σ = Done (l, σ') →
     σ !! l = None ∧ σ' !! lx = Some xs ∧ σ' !! ly = Some ys ∧
     ∀ l', l' ∈ dom σ → σ' !! l' = σ !! l') ∧
  (in_range cmp → ∀ fuel, (length xs + length ys ≤ fuel)%nat →
     ∃ l σ', Obj._merged cmp fuel lx ly σ = Done (l, σ') ∧
       σ' !! l = Some (merge_fun cmp xs ys)).
Proof.
  intros Hx Hy. split.
  - intros fuel l σ' Hrun.
    destruct (merged_preserves cmp fuel lx ly σ l σ' Hrun) as [_ Hkeep].
    destruct (merged_returns_new cmp fuel lx ly σ l σ' Hrun) as [Hnew _].
    assert (∀ l', l' ∈ dom σ → σ' !! l' = σ !! l') as Hall.
    { intros l' Hl'. apply Hkeep; [done|]. set_solver. }
    split_and!; [by apply not_elem_of_dom| | |done].
    + rewrite Hall; [done|]. apply elem_of_dom. eauto.
    + rewrite Hall; [done|]. apply elem_of_dom. eauto.
  - intros Hr fuel Hfuel.
    destruct (merged_on_store cmp fuel lx ly xs ys (merge_fun cmp xs ys) σ Hx Hy)
      as (l & σ' & Hrun & _ & Hl); [by apply merged_spec|].
    by exists l, σ'.
Qed.

Lemma merged_leaves_its_arguments_witness :
  ∃ l σ', Obj._merged cmp_standard 6 0 0 {[0%nat := [1; 3; 5]]} = Done (l, σ') ∧
    σ' !! l = Some (merge_fun cmp_standard [1; 3; 5] [1; 3; 5]).
Proof.
  destruct (merged_leaves_its_arguments cmp_standard 0 0 [1; 3; 5] [1; 3; 5]
              {[0%nat := [1; 3; 5]]}) as [_ H].
  - apply lookup_singleton_eq.
  - apply lookup_singleton_eq.
  - apply H; [apply cmp_standard_three_way|simpl; lia].
Defined.

(** *** No subscript goes out of range *)

Lemma bind_Raise_inv {T U} (m : outcome T) (k : T → outcome U) e :
  (m ≫= k) = Raise e → m = Raise e ∨ ∃ u, m = Done u ∧ k u = Raise e.
Proof.
  destruct m as [u|e'|]; [|intros [= ->]; by left|done].
  intros H. right. by exists u.
Qed.

Lemma merged_body_Done {A} (cmp : A → A → Z) (xs ys : list A) st :
  merged_guard xs ys st = true → ∃ st', merged_body cmp xs ys st = Done st'.
Proof.
  intros Hg. destruct (merged_guard_lookup _ _ _ Hg) as (x & y & Hx & Hy).
  destruct (decide (cmp x y = -1)) as [E1|E1].
  { eexists. by apply (merged_body_less cmp xs ys st x y). }
  destruct (decide (cmp x y = 1)) as [E2|E2].
  { eexists. by apply (merged_body_greater cmp xs ys st x y). }
  destruct (decide (cmp x y = 0)) as [E3|E3].
  { eexists. by apply (merged_body_equal cmp xs ys st x y). }
  eexists. by apply (merged_body_other cmp xs ys st x y).
Qed.

Lemma merged_loop_no_raise {A} (cmp : A → A → Z) fuel (xs ys : list A) st e :
  merged_loop cmp fuel xs ys st ≠ Raise e.
Proof.
  revert st. induction fuel as [|fuel IH]; intros st; simpl;
    destruct (merged_guard xs ys st) eqn:Hg; try done.
  destruct (merged_body_Done cmp xs ys st Hg) as (st' & ->). apply IH.
Qed.

Lemma merged_no_raise {A} (cmp : A → A → Z) fuel (xs ys : list A) e :
  _merged cmp fuel xs ys ≠ Raise e.
Proof.
  unfold _merged. intros [H|(st & _ & H)]%bind_Raise_inv; [|done].
  by apply merged_loop_no_raise in H.
Qed.

Lemma merge_sorted_no_raise {A} (cmp : A → A → Z) fuel (xs : list A) e :
  merge_sorted cmp fuel xs ≠ Raise e.
Proof.
  revert xs. induction fuel as [|fuel IH]; intros xs; [done|]. simpl.
  destruct (length (deepcopy xs) <=? 1)%nat; [done|].
  intros [H|(l & _ & [H|(r & _ & H)]%bind_Raise_inv)]%bind_Raise_inv.
  - by apply IH in H.
  - by apply IH in H.
  - by apply merged_no_raise in H.
Qed.

Lemma quick_sorted_no_raise {A} (cmp : A → A → Z) (rnd : nat → nat) fuel
    (xs : list A) k e :
  quick_sorted cmp rnd fuel xs k ≠ Raise e.
Proof.
  revert xs k. induction fuel as [|fuel IH]; intros xs k; [done|].
  destruct (decide (length xs ≤ 1)%nat) as [Hlen|Hlen].
  { by rewrite quick_sorted_small. }
  destruct (random_pivot rnd xs k) as (pivot & Hp & _); [lia|].
  rewrite (quick_sorted_large _ _ _ _ _ pivot) by (done || lia).
  intros [H|([l k1] & _ & H)]%bind_Raise_inv; [by apply IH in H|].
  simpl in H. apply bind_Raise_inv in H as [H|([g k2] & _ & H)]; [|done].
  by apply IH in H.
Qed.

Lemma quicksort_no_raise {A} (cmp : A → A → Z) fuel (array : list A) lo hi :
  0 ≤ lo → hi < Z.of_nat (length array) →
  (∀ e, _quicksort cmp fuel array lo hi ≠ Raise e) ∧
  (∀ out, _quicksort cmp fuel array lo hi = Done out → out ≡ₚ array).
Proof.
  revert array lo hi. induction fuel as [|fuel IH]; intros array lo hi H0 Hhi;
    [done|].
  destruct (Z.lt_ge_cases lo hi) as [Hlt|Hge].
  - rewrite quicksort_step by done.
    destruct (partition_in cmp array lo hi) as (a1 & p & -> & Hp1 & Hlo); [done..|].
    run. pose proof (Permutation_length Hp1) as Hl1.
    destruct (IH a1 lo (p - 1)) as [Hn1 Hd1]; [lia..|].
    destruct (_quicksort cmp fuel a1 lo (p - 1)) as [a2|e1|] eqn:E1; run;
      [|by destruct (Hn1 e1)|done].
    pose proof (Hd1 a2 eq_refl) as Hp2.
    pose proof (Permutation_length Hp2) as Hl2.
    destruct (IH a2 (p + 1) hi) as [Hn2 Hd2]; [lia..|].
    destruct (_quicksort cmp fuel a2 (p + 1) hi) as [a3|e2|] eqn:E2; run;
      [|by destruct (Hn2 e2)|done].
    split; [done|]. intros out [= <-]. by rewrite (Hd2 a3), Hp2.
  - rewrite quicksort_stop by done. split; [done|]. by intros out [= <-].
Qed.

(** X18.  No function of the module ever raises an [IndexError] (or a
    [TypeError] on [_partition]'s result), whatever the comparator answers
    and however long the run is: the loop condition of [_merged] and the
    [lo < hi] test of [_quicksort] keep every subscript in range. *)
Theorem no_subscript_out_of_range {A} (cmp : A → A → Z) (rnd : nat → nat)
    fuel (xs ys : list A) k e :
  _merged cmp fuel xs ys ≠ Raise e ∧
  merge_sorted cmp fuel xs ≠ Raise e ∧
  quick_sorted cmp rnd fuel xs k ≠ Raise e ∧
  quick_sort cmp fuel xs ≠ Raise e.
Proof.
  split_and!.
  - apply merged_no_raise.
  - apply merge_sorted_no_raise.
  - apply quick_sorted_no_raise.
  - unfold quick_sort. apply quicksort_no_raise; lia.
Qed.
